(** * Friendly iframe embed (src/friendly-iframe-embed.js)

    A shallow embedding of the friendly-iframe embedding unit of the AMP
    runtime: the HTML merger [mergeHtml], the readiness predicate
    [isIframeReady], the [FriendlyIframeEmbed] state holder and the
    installer [installFriendlyIframeEmbed].

    JavaScript strings are sequences of UTF-16 code units; numbers used as
    string indices are integers with the sentinel [-1], as in the source. *)

From Stdlib Require Import ZArith NArith Lia Ascii String.
From stdpp Require Import base list gmap.

Local Open Scope Z_scope.

(* ===================================================================== *)
(** ** JavaScript strings *)
(* ===================================================================== *)

(** A JavaScript string: its UTF-16 code units, in order. *)
Abbreviation jsstring := (list N).

(** The code units of an ASCII literal of the source. *)
Definition lit (s : string) : jsstring :=
  map N_of_ascii (list_ascii_of_string s).

(** The double quote, U+0022. *)
Definition dquote : jsstring := [34%N].

(** [String.prototype.toUpperCase] on one code unit: the Unicode default
    case conversion (UnicodeData and SpecialCasing).  The table is the
    complete one for the code units U+0000 to U+00FF (Basic Latin and
    Latin-1 Supplement) and stops there: a code unit above U+00FF is
    passed through, which the builtin does not do for every one of them
    (U+FB01 becomes [FI], U+1E99 becomes [Y] and U+030A).  Results that
    depend on how such a code unit is upper-cased are stated for the
    documents of the range ([latin1]).  U+00DF (sharp s) is the one entry
    of the range whose upper case is longer than itself. *)
Definition upperUnit (c : N) : jsstring :=
  if ((97 <=? c) && (c <=? 122))%N then [(c - 32)%N]
  else if (c =? 181)%N then [924%N]
  else if (c =? 223)%N then [83%N; 83%N]
  else if ((224 <=? c) && (c <=? 254) && negb (c =? 247))%N then [(c - 32)%N]
  else if (c =? 255)%N then [376%N]
  else [c].

(** [s.toUpperCase()]. *)
Definition toUpperCase (s : jsstring) : jsstring :=
  flat_map upperUnit s.

(** [p] is a prefix of [s] (code unit by code unit). *)
Fixpoint startsWith (p s : jsstring) : bool :=
  match p, s with
  | [], _ => true
  | _ :: _, [] => false
  | a :: p', b :: s' => (a =? b)%N && startsWith p' s'
  end.

(** The least position [k' >= k] at which [p] occurs, [s] being the text
    from position [k] on. *)
Fixpoint searchFrom (p s : jsstring) (k : nat) : option nat :=
  if startsWith p s then Some k
  else match s with
       | [] => None
       | _ :: s' => searchFrom p s' (S k)
       end.

(** The length of a string as a JavaScript number. *)
Definition jslength (s : jsstring) : Z := Z.of_nat (length s).

(** [Math.min(Math.max(i, 0), len)] as a position of the list. *)
Definition clampIndex (i len : Z) : nat :=
  Z.to_nat (Z.min (Z.max i 0) len).

(** [s.indexOf(searchString, position)]: the position is clamped into
    [0 .. s.length]; the result is the least index not before it at which
    [searchString] occurs, and [-1] when there is none. *)
Definition indexOf (s searchString : jsstring) (position : Z) : Z :=
  let start := clampIndex position (jslength s) in
  match searchFrom searchString (drop start s) start with
  | Some k => Z.of_nat k
  | None => -1
  end.

(** [s.substring(start, end)]; [end_ = None] is the call with one argument.
    Both bounds are clamped into [0 .. s.length] and swapped when out of
    order. *)
Definition substring (s : jsstring) (start : Z) (end_ : option Z) : jsstring :=
  let len := jslength s in
  let finalStart := clampIndex start len in
  let finalEnd := clampIndex (default len end_) len in
  let from := Nat.min finalStart finalEnd in
  let to := Nat.max finalStart finalEnd in
  take (to - from)%nat (drop from s).

(** [parts.join('')]. *)
Definition join (parts : list jsstring) : jsstring := concat parts.

(* ===================================================================== *)
(** ** HTML escaping (./dom) *)
(* ===================================================================== *)

(** Modelled from the spec: [escapeHtml] of src/dom.js is not among the
    sources; the specification's external interfaces give it as
    "escape(string) -> string (must escape &, <, >, double quote and
    apostrophe at minimum)".  Each of the five characters is replaced by
    its character reference, every other code unit is kept. *)
Definition escapeHtmlChar (c : N) : jsstring :=
  if (c =? 38)%N then lit "&amp;"
  else if (c =? 60)%N then lit "&lt;"
  else if (c =? 62)%N then lit "&gt;"
  else if (c =? 34)%N then lit "&quot;"
  else if (c =? 39)%N then lit "&#x27;"
  else [c].

(** Modelled from the spec: [escapeHtml(text)], the replacement above
    applied to every code unit of the text. *)
Definition escapeHtml (text : jsstring) : jsstring :=
  flat_map escapeHtmlChar text.

(* ===================================================================== *)
(** ** The HTML merger *)
(* ===================================================================== *)

(** [FriendlyIframeSpec]: [extensionIds] and [fonts] are optional
    ([?Array<string>|undefined]). *)
Record FriendlyIframeSpec : Type := {
  url : jsstring;
  html : jsstring;
  extensionIds : option (list jsstring);
  fonts : option (list jsstring);
}.

(** The insertion point of [mergeHtml] (lines 225 to 238), computed on the
    upper-cased document. *)
Definition insertionPoint (originalHtmlUp : jsstring) : Z :=
  let ip := indexOf originalHtmlUp (lit "<HEAD") 0 in
  let ip := if negb (ip =? -1)
            then indexOf originalHtmlUp (lit ">") (ip + 1) + 1
            else ip in
  let ip := if ip =? -1
            then indexOf originalHtmlUp (lit "<BODY") 0
            else ip in
  if ip =? -1
  then let ip := indexOf originalHtmlUp (lit "<HTML") 0 in
       if negb (ip =? -1)
       then indexOf originalHtmlUp (lit ">") (ip + 1) + 1
       else ip
  else ip.

(** The [<base>] tag pushed at line 248. *)
Definition baseTag (u : jsstring) : jsstring :=
  lit "<base href=" ++ dquote ++ escapeHtml u ++ dquote ++ lit ">".

(** The [<link>] tag pushed for one font at lines 253 and 254. *)
Definition linkTag (font : jsstring) : jsstring :=
  lit "<link href=" ++ dquote ++ escapeHtml font ++ dquote
  ++ lit " rel=" ++ dquote ++ lit "stylesheet" ++ dquote
  ++ lit " type=" ++ dquote ++ lit "text/css" ++ dquote ++ lit ">".

(** Lines 225 to 265 of [mergeHtml], as a function of the spec and of the
    upper-cased copy [originalHtmlUp] that line 223 takes from the
    builtin; [result] is the array the source pushes to. *)
Definition mergeHtmlFrom (originalHtmlUp : jsstring) (spec : FriendlyIframeSpec)
    : jsstring :=
  let originalHtml := html spec in
  let ip := insertionPoint originalHtmlUp in
  let result : list jsstring := [] in
  (* Preambule. *)
  let result := if 0 <? ip
                then result ++ [substring originalHtml 0 (Some ip)]
                else result in
  (* Add <BASE> tag. *)
  let result := result ++ [baseTag (url spec)] in
  (* Load fonts. *)
  let result := match fonts spec with
                | Some fs => fold_left (fun r font => r ++ [linkTag font]) fs result
                | None => result
                end in
  (* Postambule. *)
  let result := if 0 <? ip
                then result ++ [substring originalHtml ip None]
                else result ++ [originalHtml] in
  join result.

(** [mergeHtml(spec)]: lines 222 and 223, then the rest on the upper-cased
    copy. *)
Definition mergeHtml (spec : FriendlyIframeSpec) : jsstring :=
  mergeHtmlFrom (toUpperCase (html spec)) spec.

(** The link tags of a spec, concatenated in the order of its fonts. *)
Definition fontLinks (spec : FriendlyIframeSpec) : jsstring :=
  concat (map linkTag (default [] (fonts spec))).

(** A spec without extension ids. *)
Definition mkSpec (u h : jsstring) (fs : option (list jsstring)) : FriendlyIframeSpec :=
  {| url := u; html := h; extensionIds := None; fonts := fs |}.


(* ===================================================================== *)
(** ** The child document and the readiness predicate *)
(* ===================================================================== *)

(** A DOM node with its child nodes, in document order. *)
#[warnings="-register-all"]
Inductive Node : Type :=
  mkNode (nodeName : string) (childNodes : list Node).

Definition childNodesOf (n : Node) : list Node :=
  match n with mkNode _ cs => cs end.

(** [node.firstChild]: [None] is [null]. *)
Definition firstChild (n : Node) : option Node := head (childNodesOf n).

(** [parent.appendChild(child)]. *)
Definition appendChild (parent child : Node) : Node :=
  match parent with mkNode name cs => mkNode name (cs ++ [child]) end.

(** [document.readyState]. *)
Inductive ReadyState : Type := loading | interactive | complete.

Record Document : Type := {
  readyState : ReadyState;
  body : option Node;
}.

(** A window: its identity and its document ([None] is a falsy
    [window.document], which the source guards against). *)
Record Window : Type := {
  windowId : nat;
  document : option Document;
}.

(** The name of the property that links an iframe to its embed. *)
Definition EMBED_PROP : string := "__AMP_EMBED__".

(** An iframe element.  [contentWindow] is the child window as the browser
    exposes it ([None] is [null]); [expando] holds the properties scripts
    set on the element, by name, each an object reference. *)
Record HTMLIFrameElement : Type := {
  iframeId : nat;
  contentWindow : option Window;
  styleVisibility : string;
  referrerpolicy : option string;
  iframeReadyState : option string;
  srcdoc : option jsstring;
  src : option string;
  expando : gmap string nat;
}.

(** Modelled from the spec: [isDocumentReady] of src/document-ready.js is
    not among the sources; the specification gives it as
    "isDocumentReady(document) -> bool (checks native ready-state is not
    the initial loading stage)". *)
Definition isDocumentReady (doc : Document) : bool :=
  match readyState doc with
  | loading => false
  | _ => true
  end.

(** [isIframeReady(iframe)].  [childDoc] is
    [iframe.contentWindow && iframe.contentWindow.document]; the returned
    conjunction is read left to right as in the source, an object being
    truthy and [null] falsy. *)
Definition isIframeReady (iframe : HTMLIFrameElement) : bool :=
  let childDoc := match contentWindow iframe with
                  | Some w => document w
                  | None => None
                  end in
  match childDoc with
  | None => false
  | Some doc =>
      if isDocumentReady doc then
        match body doc with
        | None => false
        | Some b => match firstChild b with
                    | None => false
                    | Some _ => true
                    end
        end
      else false
  end.

(** [getFriendlyIframeEmbedOptional(iframe)]: the reference stored under
    [EMBED_PROP], [None] when there is none. *)
Definition getFriendlyIframeEmbedOptional (iframe : HTMLIFrameElement) : option nat :=
  expando iframe !! EMBED_PROP.

(* ===================================================================== *)
(** ** Calls to collaborators *)
(* ===================================================================== *)

(** A JavaScript error value: a [TypeError] raised by the engine on a
    property access on [null], or a value thrown or reported by a
    collaborator. *)
Inductive Error : Type :=
| TypeError
| Thrown (code : nat).

(** The two objects whose load event the installer listens to. *)
Inductive Target : Type := TargetIframe | TargetChildWindow.

(** The effects of the unit on its collaborators and on the promises it
    hands out, recorded in program order. *)
Inductive Call : Type :=
| SetStyle (property value : string)            (* setStyle(iframe, ..) *)
| SetAttribute (name value : string)            (* iframe.setAttribute *)
| LoadExtension (extensionId : jsstring)        (* extensions.loadExtension *)
| SetSrcdoc (text : jsstring)                   (* iframe.srcdoc = html *)
| SetSrc (value : string)                       (* iframe.src = .. *)
| ContainerAppendChild (iframe : nat)           (* container.appendChild *)
| DocumentOpen
| DocumentWrite (text : jsstring)
| DocumentClose
| LoadPromise (target : Target)                 (* loadPromise(..) *)
| SetInterval (milliseconds : nat)              (* win.setInterval *)
| ClearInterval                                 (* win.clearInterval *)
| RethrowAsync (error : Error)                  (* rethrowAsync(error) *)
| ReadyResolved                                 (* readyPromise fulfilled *)
| NewEmbed (ref : nat)                          (* new FriendlyIframeEmbed *)
| InstallExtensionsInChildWindow
    (childWin : option nat) (ids : list jsstring) (preinstall : option nat)
| Signal (name : string)                        (* signals_.signal *)
| SetBodyStyles                                 (* setStyles(body, ..) *)
| InstallResolved (ref : nat)                   (* returned promise fulfilled *)
| InstallRejected (error : Error)               (* returned promise rejected *)
| Notify (handler : nat) (visible : bool)       (* a visibility handler *)
| RemoveForChildWindow (childWin : option nat)
| DisposeServicesForEmbed (childWin : option nat).

(* ===================================================================== *)
(** ** The embed *)
(* ===================================================================== *)

(** Modelled from the spec: [Observable] of src/observable.js is not among
    the sources; the specification gives the channel as one that
    "supports multiple independent subscribers, each removable" and is
    notified "synchronously in subscription order".  Handlers are kept
    by reference, in subscription order. *)
Record Observable : Type := { handlers_ : list nat }.

(** Modelled from the spec: [new Observable()], without subscribers. *)
Definition Observable_new : Observable := {| handlers_ := [] |}.

(** Modelled from the spec: [observable.add(handler)] subscribes after the
    handlers already there. *)
Definition Observable_add (o : Observable) (handler : nat) : Observable :=
  {| handlers_ := handlers_ o ++ [handler] |}.

(** Modelled from the spec: the unsubscribe function [add] returns. *)
Definition Observable_remove (o : Observable) (handler : nat) : Observable :=
  {| handlers_ := filter (fun h => h <> handler) (handlers_ o) |}.

(** Modelled from the spec: [observable.fire(event)], one call per
    handler, in subscription order. *)
Definition Observable_fire (o : Observable) (event : bool) : list Call :=
  map (fun h => Notify h event) (handlers_ o).

(** Modelled from the spec: [Signals] of src/utils/signals.js is not among
    the sources; the specification gives a "named-signal set", each signal
    "fired exactly once".  Time stamps are left out. *)
Definition Signals : Type := list string.

(** Modelled from the spec: [signals.signal(name)] records the signal
    once. *)
Definition Signals_signal (s : Signals) (name : string) : Signals :=
  if decide (name ∈ s) then s else s ++ [name].

(** [FriendlyIframeEmbed]: the fields the constructor sets.  [self] is the
    object's identity, [iframe_] and [win] are references ([win = None]
    when [iframe.contentWindow] was [null]), [loadedPromise_] holds no
    data of its own. *)
Record FriendlyIframeEmbed : Type := {
  self : nat;
  iframe_ : nat;
  win : option nat;
  spec_ : FriendlyIframeSpec;
  visible_ : bool;
  visibilityObservable_ : Observable;
  signals_ : Signals;
}.

(** [new FriendlyIframeEmbed(iframe, spec, loadedPromise)]. *)
Definition FriendlyIframeEmbed_new (ref : nat) (iframe : HTMLIFrameElement)
    (spec : FriendlyIframeSpec) : FriendlyIframeEmbed :=
  {| self := ref;
     iframe_ := iframeId iframe;
     win := windowId <$> contentWindow iframe;
     spec_ := spec;
     visible_ := false;
     visibilityObservable_ := Observable_new;
     signals_ := [] |}.

(** [embed.isVisible()]. *)
Definition isVisible (this : FriendlyIframeEmbed) : bool := visible_ this.

(** [embed.onVisibilityChanged(handler)]. *)
Definition onVisibilityChanged (this : FriendlyIframeEmbed) (handler : nat)
    : FriendlyIframeEmbed :=
  {| self := self this; iframe_ := iframe_ this; win := win this;
     spec_ := spec_ this; visible_ := visible_ this;
     visibilityObservable_ := Observable_add (visibilityObservable_ this) handler;
     signals_ := signals_ this |}.

(** [embed.setVisible_(visible)]: the embed after the call and the handler
    calls it made. *)
Definition setVisible_ (this : FriendlyIframeEmbed) (visible : bool)
    : FriendlyIframeEmbed * list Call :=
  if negb (Bool.eqb (visible_ this) visible) then
    let this' :=
      {| self := self this; iframe_ := iframe_ this; win := win this;
         spec_ := spec_ this; visible_ := visible;
         visibilityObservable_ := visibilityObservable_ this;
         signals_ := signals_ this |} in
    (this', Observable_fire (visibilityObservable_ this') (visible_ this'))
  else (this, []).

(** [setFriendlyIframeEmbedVisible(embed, visible)]. *)
Definition setFriendlyIframeEmbedVisible := setVisible_.

(** A run of visibility changes, the calls of each appended in order. *)
Fixpoint setVisibleAll (this : FriendlyIframeEmbed) (values : list bool)
    : FriendlyIframeEmbed * list Call :=
  match values with
  | [] => (this, [])
  | v :: rest =>
      let (this1, calls1) := setVisible_ this v in
      let (this2, calls2) := setVisibleAll this1 rest in
      (this2, calls1 ++ calls2)
  end.

(* ===================================================================== *)
(** ** Shared runtime state and [destroy] *)
(* ===================================================================== *)

(** A resource of the resource tracker and the window that hosts it. *)
Record Resource : Type := { resourceId : nat; hostWin : nat }.

(** The part of the runtime that [destroy] and the lookup by iframe handle
    work on: the iframe elements by identity, the resources the tracker
    has registered, and the services instantiated per embed window, by
    window identity. *)
Record World : Type := {
  iframes : gmap nat HTMLIFrameElement;
  resources : list Resource;
  services : gmap nat (list string);
}.

(** Modelled from the spec: [Resources.removeForChildWindow] of
    src/service/resources-impl.js is not among the sources; the
    specification gives it as deregistering the child window from the
    resource-tracking system.  Every resource hosted by the window is
    dropped; a [null] window hosts none. *)
Definition removeForChildWindow (childWin : option nat) (w : World) : World :=
  {| iframes := iframes w;
     resources := filter (fun r => Some (hostWin r) <> childWin) (resources w);
     services := services w |}.

(** Modelled from the spec: [disposeServicesForEmbed] of src/service.js is
    not among the sources; the specification gives it as disposing "any
    services instantiated for" the window. *)
Definition disposeServicesForEmbed (embedWin : option nat) (w : World) : World :=
  {| iframes := iframes w;
     resources := resources w;
     services := match embedWin with
                 | Some i => delete i (services w)
                 | None => services w
                 end |}.

(** [embed.destroy()]. *)
Definition destroy (this : FriendlyIframeEmbed) (w : World) : World :=
  let w := removeForChildWindow (win this) w in
  disposeServicesForEmbed (win this) w.

(** The lookup by iframe handle in a world: the handle names an element of
    the world, whose back-reference is read. *)
Definition lookupEmbed (w : World) (iframe : nat) : option nat :=
  iframes w !! iframe ≫= getFriendlyIframeEmbedOptional.

(** The resources still registered for a window. *)
Definition registeredFor (w : World) (childWin : nat) : list Resource :=
  filter (fun r => hostWin r = childWin) (resources w).

(* ===================================================================== *)
(** ** Field updates of an iframe element *)
(* ===================================================================== *)

Definition set_contentWindow (v : option Window) (i : HTMLIFrameElement) :=
  {| iframeId := iframeId i; contentWindow := v;
     styleVisibility := styleVisibility i; referrerpolicy := referrerpolicy i;
     iframeReadyState := iframeReadyState i; srcdoc := srcdoc i; src := src i;
     expando := expando i |}.

Definition set_styleVisibility (v : string) (i : HTMLIFrameElement) :=
  {| iframeId := iframeId i; contentWindow := contentWindow i;
     styleVisibility := v; referrerpolicy := referrerpolicy i;
     iframeReadyState := iframeReadyState i; srcdoc := srcdoc i; src := src i;
     expando := expando i |}.

Definition set_referrerpolicy (v : option string) (i : HTMLIFrameElement) :=
  {| iframeId := iframeId i; contentWindow := contentWindow i;
     styleVisibility := styleVisibility i; referrerpolicy := v;
     iframeReadyState := iframeReadyState i; srcdoc := srcdoc i; src := src i;
     expando := expando i |}.

Definition set_iframeReadyState (v : option string) (i : HTMLIFrameElement) :=
  {| iframeId := iframeId i; contentWindow := contentWindow i;
     styleVisibility := styleVisibility i; referrerpolicy := referrerpolicy i;
     iframeReadyState := v; srcdoc := srcdoc i; src := src i;
     expando := expando i |}.

Definition set_srcdoc (v : option jsstring) (i : HTMLIFrameElement) :=
  {| iframeId := iframeId i; contentWindow := contentWindow i;
     styleVisibility := styleVisibility i; referrerpolicy := referrerpolicy i;
     iframeReadyState := iframeReadyState i; srcdoc := v; src := src i;
     expando := expando i |}.

Definition set_src (v : option string) (i : HTMLIFrameElement) :=
  {| iframeId := iframeId i; contentWindow := contentWindow i;
     styleVisibility := styleVisibility i; referrerpolicy := referrerpolicy i;
     iframeReadyState := iframeReadyState i; srcdoc := srcdoc i; src := v;
     expando := expando i |}.

Definition set_expando (v : gmap string nat) (i : HTMLIFrameElement) :=
  {| iframeId := iframeId i; contentWindow := contentWindow i;
     styleVisibility := styleVisibility i; referrerpolicy := referrerpolicy i;
     iframeReadyState := iframeReadyState i; srcdoc := srcdoc i; src := src i;
     expando := v |}.

(** [embed.startRender_()].  [iframe] is the element [this.iframe] refers
    to and its [contentWindow] the window [this.win] refers to.  The last
    component is the [TypeError] of [this.win.document] when [this.win] is
    [null]; the effects before it have taken place. *)
Definition startRender_ (this : FriendlyIframeEmbed) (iframe : HTMLIFrameElement)
    : FriendlyIframeEmbed * HTMLIFrameElement * list Call * option Error :=
  let this' :=
    {| self := self this; iframe_ := iframe_ this; win := win this;
       spec_ := spec_ this; visible_ := visible_ this;
       visibilityObservable_ := visibilityObservable_ this;
       signals_ := Signals_signal (signals_ this) "render-start" |} in
  let iframe' := set_styleVisibility "" iframe in
  let calls := [Signal "render-start"; SetStyle "visibility" ""] in
  match contentWindow iframe with
  | None => (this', iframe', calls, Some TypeError)
  | Some w =>
      match document w with
      | Some doc =>
          match body doc with
          | Some _ => (this', iframe', calls ++ [SetBodyStyles], None)
          | None => (this', iframe', calls, None)
          end
      | None => (this', iframe', calls, None)
      end
  end.

(* ===================================================================== *)
(** ** The installer *)
(* ===================================================================== *)

(** What the installer cannot see in advance: whether the iframe prototype
    has [srcdoc], whether [installExtensionsInChildWindow] throws (the
    installer does not catch it), and the reference [new] gives the embed. *)
Record Browser : Type := {
  srcdocInPrototype : bool;
  installExtensionsThrows : option Error;
  newRef : nat;
}.

(** [isSrcdocSupported()]: the result and the module-level cache
    [srcdocSupported] after the call ([None] is [undefined]). *)
Definition isSrcdocSupported (browser : Browser) (srcdocSupported : option bool)
    : bool * option bool :=
  match srcdocSupported with
  | None => (srcdocInPrototype browser, Some (srcdocInPrototype browser))
  | Some b => (b, Some b)
  end.

(** The state of a promise that carries no value. *)
Inductive Settled : Type :=
| Pending
| Fulfilled
| Rejected (error : Error).

(** The state of the promise [installFriendlyIframeEmbed] returns. *)
Inductive InstallOutcome : Type :=
| InstallPending
| InstallFulfilled (ref : nat)
| InstallFailed (error : Error).

(** The promise reaction jobs of the installer.
    - [CatchReaction r]: the reaction of
      [loadedPromise.catch(error => rethrowAsync(error))]; [r] is the
      rejection reason, [None] when [loadedPromise] was fulfilled;
    - [ThenReaction]: the callback chained to it,
      [() => { resolve(); win.clearInterval(interval); }];
    - [ReadyReaction]: the callback of [readyPromise.then]. *)
Inductive Task : Type :=
| CatchReaction (reason : option Error)
| ThenReaction
| ReadyReaction.

(** What is fixed once the synchronous part of the installer has run. *)
Record InstallConfig : Type := {
  browser : Browser;
  srcdocSupported : option bool;
  theSpec : FriendlyIframeSpec;
  preinstallCallback : option nat;
  loadTarget : Target;
  chained : bool;
}.

(** The state of one installation between two jobs of the event loop.
    [chained] (above) says that the catch/then chain was attached to
    [loadedPromise], which the source does only when the iframe was not
    ready at the first check; [readyPromise] is [true] once fulfilled. *)
Record Install : Type := {
  config : InstallConfig;
  theIframe : HTMLIFrameElement;
  loadedPromise : Settled;
  intervalActive : bool;
  readyPromise : bool;
  microtasks : list Task;
  theEmbed : option FriendlyIframeEmbed;
  installPromise : InstallOutcome;
  trace : list Call;
}.

Definition set_theIframe (v : HTMLIFrameElement) (st : Install) : Install :=
  {| config := config st; theIframe := v; loadedPromise := loadedPromise st;
     intervalActive := intervalActive st; readyPromise := readyPromise st;
     microtasks := microtasks st; theEmbed := theEmbed st;
     installPromise := installPromise st; trace := trace st |}.

Definition set_loadedPromise (v : Settled) (st : Install) : Install :=
  {| config := config st; theIframe := theIframe st; loadedPromise := v;
     intervalActive := intervalActive st; readyPromise := readyPromise st;
     microtasks := microtasks st; theEmbed := theEmbed st;
     installPromise := installPromise st; trace := trace st |}.

Definition set_intervalActive (v : bool) (st : Install) : Install :=
  {| config := config st; theIframe := theIframe st;
     loadedPromise := loadedPromise st;
     intervalActive := v; readyPromise := readyPromise st;
     microtasks := microtasks st; theEmbed := theEmbed st;
     installPromise := installPromise st; trace := trace st |}.

Definition set_readyPromise (v : bool) (st : Install) : Install :=
  {| config := config st; theIframe := theIframe st;
     loadedPromise := loadedPromise st;
     intervalActive := intervalActive st; readyPromise := v;
     microtasks := microtasks st; theEmbed := theEmbed st;
     installPromise := installPromise st; trace := trace st |}.

Definition set_microtasks (v : list Task) (st : Install) : Install :=
  {| config := config st; theIframe := theIframe st;
     loadedPromise := loadedPromise st;
     intervalActive := intervalActive st; readyPromise := readyPromise st;
     microtasks := v; theEmbed := theEmbed st;
     installPromise := installPromise st; trace := trace st |}.

Definition set_theEmbed (v : option FriendlyIframeEmbed) (st : Install) : Install :=
  {| config := config st; theIframe := theIframe st;
     loadedPromise := loadedPromise st;
     intervalActive := intervalActive st; readyPromise := readyPromise st;
     microtasks := microtasks st; theEmbed := v;
     installPromise := installPromise st; trace := trace st |}.

Definition set_installPromise (v : InstallOutcome) (st : Install) : Install :=
  {| config := config st; theIframe := theIframe st;
     loadedPromise := loadedPromise st;
     intervalActive := intervalActive st; readyPromise := readyPromise st;
     microtasks := microtasks st; theEmbed := theEmbed st;
     installPromise := v; trace := trace st |}.

(** Record calls at the end of the trace. *)
Definition emit (calls : list Call) (st : Install) : Install :=
  {| config := config st; theIframe := theIframe st;
     loadedPromise := loadedPromise st;
     intervalActive := intervalActive st; readyPromise := readyPromise st;
     microtasks := microtasks st; theEmbed := theEmbed st;
     installPromise := installPromise st; trace := trace st ++ calls |}.

(** Queue a promise reaction job. *)
Definition enqueue (t : Task) (st : Install) : Install :=
  set_microtasks (microtasks st ++ [t]) st.

(** [resolve()] of [readyPromise]: the first call fulfils the promise and
    queues the reaction of [readyPromise.then]; a later call does nothing. *)
Definition resolveReady (st : Install) : Install :=
  if readyPromise st then st
  else enqueue ReadyReaction (set_readyPromise true (emit [ReadyResolved] st)).

(** [win.clearInterval(interval)]. *)
Definition clearInterval (st : Install) : Install :=
  set_intervalActive false (emit [ClearInterval] st).

(** The callback of [readyPromise.then] (lines 183 to 194).  A throw of
    [installExtensionsInChildWindow] or of [startRender_] rejects the
    returned promise; otherwise it is fulfilled with the embed. *)
Definition readyContinuation (st : Install) : Install :=
  let cfg := config st in
  let ref := newRef (browser cfg) in
  let embed := FriendlyIframeEmbed_new ref (theIframe st) (theSpec cfg) in
  let iframe1 :=
    set_expando (<[EMBED_PROP := ref]> (expando (theIframe st))) (theIframe st) in
  let childWin := windowId <$> contentWindow iframe1 in
  let st := set_theEmbed (Some embed) (set_theIframe iframe1 (emit [NewEmbed ref] st)) in
  (* Add extensions. *)
  let st := emit [InstallExtensionsInChildWindow childWin
                    (default [] (extensionIds (theSpec cfg)))
                    (preinstallCallback cfg)] st in
  match installExtensionsThrows (browser cfg) with
  | Some e => set_installPromise (InstallFailed e) (emit [InstallRejected e] st)
  | None =>
      (* Ready to be shown. *)
      let '(embed', iframe2, calls, thrown) := startRender_ embed iframe1 in
      let st := set_theEmbed (Some embed') (set_theIframe iframe2 (emit calls st)) in
      match thrown with
      | Some e => set_installPromise (InstallFailed e) (emit [InstallRejected e] st)
      | None => set_installPromise (InstallFulfilled ref) (emit [InstallResolved ref] st)
      end
  end.

(** One promise reaction job. *)
Definition runTask (t : Task) (st : Install) : Install :=
  match t with
  | CatchReaction (Some error) => enqueue ThenReaction (emit [RethrowAsync error] st)
  | CatchReaction None => enqueue ThenReaction st
  | ThenReaction => clearInterval (resolveReady st)
  | ReadyReaction => readyContinuation st
  end.

(** The jobs a job can lead to, itself included: a bound on the jobs run
    before the queue is empty again. *)
Definition taskWeight (t : Task) : nat :=
  match t with
  | CatchReaction _ => 3
  | ThenReaction => 2
  | ReadyReaction => 1
  end.

Definition queueWeight (q : list Task) : nat :=
  foldr (fun t n => (taskWeight t + n)%nat) 0%nat q.

(** Run queued jobs, first in first out, at most [fuel] of them. *)
Fixpoint drain (fuel : nat) (st : Install) : Install :=
  match fuel with
  | O => st
  | S fuel' =>
      match microtasks st with
      | [] => st
      | t :: q => drain fuel' (runTask t (set_microtasks q st))
      end
  end.

(** The microtask checkpoint at the end of a script or event callback. *)
Definition settle (st : Install) : Install :=
  drain (queueWeight (microtasks st)) st.

(** [installFriendlyIframeEmbed(iframe, container, spec,
    opt_preinstallCallback)] up to its [return]: the state it leaves, or
    the [TypeError] of the write-stream strategy on an iframe without child
    window or document.  [iframe] carries the child window as it is at the
    readiness check of line 160.  The calls into other units of lines 116
    to 150 ([getTopWindow], [extensionsFor], [loadExtension],
    [appendChild], [open], [write], [close]) are recorded and taken to
    return; what is proved of a returned state assumes they did. *)
Definition installFriendlyIframeEmbed (b : Browser) (cache : option bool)
    (iframe : HTMLIFrameElement) (spec : FriendlyIframeSpec)
    (opt_preinstallCallback : option nat) : Install + Error :=
  let iframe := set_styleVisibility "hidden" iframe in
  let iframe := set_referrerpolicy (Some "unsafe-url"%string) iframe in
  let calls := [SetStyle "visibility" "hidden";
                SetAttribute "referrerpolicy" "unsafe-url"] in
  (* Pre-load extensions. *)
  let calls := calls ++ match extensionIds spec with
                        | Some ids => map LoadExtension ids
                        | None => []
                        end in
  let html := mergeHtml spec in
  let '(supported, cache') := isSrcdocSupported b cache in
  let injected : (HTMLIFrameElement * list Call * Target) + Error :=
    if supported then
      inl (set_srcdoc (Some html) iframe,
           calls ++ [SetSrcdoc html; LoadPromise TargetIframe;
                     ContainerAppendChild (iframeId iframe)],
           TargetIframe)
    else
      let iframe := set_src (Some "about:blank"%string) iframe in
      let calls := calls ++ [SetSrc "about:blank";
                             ContainerAppendChild (iframeId iframe)] in
      match contentWindow iframe with
      | None => inr TypeError
      | Some w =>
          match document w with
          | None => inr TypeError
          | Some _ =>
              inl (iframe,
                   calls ++ [DocumentOpen; DocumentWrite html;
                             LoadPromise TargetChildWindow; DocumentClose],
                   TargetChildWindow)
          end
      end in
  match injected with
  | inr e => inr e
  | inl (iframe, calls, target) =>
      let ready := isIframeReady iframe in
      inl {| config := {| browser := b; srcdocSupported := cache';
                          theSpec := spec;
                          preinstallCallback := opt_preinstallCallback;
                          loadTarget := target;
                          chained := negb ready |};
             theIframe := iframe;
             loadedPromise := Pending;
             intervalActive := negb ready;
             readyPromise := ready;
             microtasks := if ready then [ReadyReaction] else [];
             theEmbed := None;
             installPromise := InstallPending;
             trace := calls ++ (if ready then [ReadyResolved] else [SetInterval 5]) |}
  end.

(** What the event loop delivers to the installation. *)
Inductive Event : Type :=
| DomChanged (childWindow : option Window)  (* the child document was parsed further *)
| TimerFired                                (* the interval elapsed *)
| LoadEvent (target : Target)               (* a load event *)
| ErrorEvent (target : Target) (error : Error). (* an error event *)

Definition Target_eqb (a b : Target) : bool :=
  match a, b with
  | TargetIframe, TargetIframe | TargetChildWindow, TargetChildWindow => true
  | _, _ => false
  end.

(** Modelled from the spec: [loadPromise] of src/event-helper.js is not
    among the sources; the specification gives it as "resolving on the
    target's load event and rejecting on its error event".  A settled
    promise stays as it is; settling queues the reaction attached to it. *)
Definition settleLoaded (outcome : Settled) (reason : option Error) (st : Install)
    : Install :=
  match loadedPromise st with
  | Pending =>
      let st := set_loadedPromise outcome st in
      if chained (config st) then enqueue (CatchReaction reason) st else st
  | _ => st
  end.

(** The callbacks an event runs, before the microtask checkpoint. *)
Definition dispatch (ev : Event) (st : Install) : Install :=
  match ev with
  | DomChanged w => set_theIframe (set_contentWindow w (theIframe st)) st
  | TimerFired =>
      if intervalActive st then
        if isIframeReady (theIframe st) then clearInterval (resolveReady st)
        else st
      else st
  | LoadEvent target =>
      (* iframe.onload: Chrome does not reflect the iframe readystate. *)
      let st := match target with
                | TargetIframe =>
                    set_theIframe (set_iframeReadyState (Some "complete"%string) (theIframe st)) st
                | TargetChildWindow => st
                end in
      if Target_eqb target (loadTarget (config st))
      then settleLoaded Fulfilled None st else st
  | ErrorEvent target error =>
      if Target_eqb target (loadTarget (config st))
      then settleLoaded (Rejected error) (Some error) st else st
  end.

(** One turn of the event loop. *)
Definition step (st : Install) (ev : Event) : Install :=
  settle (dispatch ev st).

(** The installation after the calling script has ended and the events
    have been delivered in order. *)
Definition run (st : Install) (events : list Event) : Install :=
  fold_left step events (settle st).

(* ===================================================================== *)
(** ** Occurrences in a text *)
(* ===================================================================== *)

(** [p] occurs in [s]. *)
Definition occursIn (p s : jsstring) : Prop :=
  exists pre post, s = pre ++ p ++ post.

(** [s = pre ++ p ++ post] is the leftmost occurrence of [p] in [s]. *)
Definition firstOccurrence (p s pre post : jsstring) : Prop :=
  s = pre ++ p ++ post /\
  forall pre' post', s = pre' ++ p ++ post' -> (length pre <= length pre')%nat.

(** Occurrences of a code unit in a string. *)
Definition countUnit (c : N) (s : jsstring) : nat :=
  length (filter (fun x => x = c) s).

(** Every code unit of the text is at most U+00FF: the documents on which
    [upperUnit] is the builtin's table. *)
Definition latin1 (s : jsstring) : Prop :=
  Forall (fun c => (c <= 255)%N) s.

(** Every code unit of the text has, in the table [upperUnit], an upper
    case of one code unit, so that [toUpperCase] keeps every position. *)
Definition caseStable (s : jsstring) : Prop :=
  Forall (fun c => length (upperUnit c) = 1%nat) s.

(* ===================================================================== *)
(** ** Scenarios *)
(* ===================================================================== *)

(** The iframe after a change of the body of its child document, nothing
    else being touched. *)
Definition updateBody (f : Node -> Node) (iframe : HTMLIFrameElement)
    : HTMLIFrameElement :=
  set_contentWindow
    ((fun w =>
        {| windowId := windowId w;
           document :=
             (fun d => {| readyState := readyState d; body := f <$> body d |})
               <$> document w |})
       <$> contentWindow iframe)
    iframe.

(** The embed after the handlers subscribed one after the other. *)
Definition subscribeAll (this : FriendlyIframeEmbed) (handlers : list nat)
    : FriendlyIframeEmbed :=
  fold_left onVisibilityChanged handlers this.

(** An iframe element as [document.createElement] leaves it, with the
    child window the browser gives it. *)
Definition newIframe (id : nat) (w : option Window) : HTMLIFrameElement :=
  {| iframeId := id; contentWindow := w; styleVisibility := "";
     referrerpolicy := None; iframeReadyState := None; srcdoc := None;
     src := None; expando := ∅ |}.

(** A child window whose document is complete and whose body has the
    given children. *)
Definition loadedWindow (id : nat) (children : list Node) : Window :=
  {| windowId := id;
     document := Some {| readyState := complete;
                         body := Some (mkNode "BODY" children) |} |}.

Definition exampleSpec : FriendlyIframeSpec :=
  {| url := lit "https://x.test/a&b";
     html := lit "<html><head></head><body>hi</body></html>";
     extensionIds := Some [lit "amp-a"; lit "amp-b"];
     fonts := Some [lit "https://f.test/a.css"] |}.

Definition exampleBrowser : Browser :=
  {| srcdocInPrototype := true; installExtensionsThrows := None; newRef := 100 |}.

(** The state a call of the installer leaves, the module-level cache
    being empty before it; [None] when the call throws. *)
Definition installed (b : Browser) (iframe : HTMLIFrameElement)
    (spec : FriendlyIframeSpec) (hook : option nat) : option Install :=
  match installFriendlyIframeEmbed b None iframe spec hook with
  | inl st => Some st
  | inr _ => None
  end.

(** A world that holds the iframe of an installation, two resources
    hosted by its child window, one hosted by another window, and services
    for both windows. *)
Definition worldOf (st : Install) (childWin other : nat) : World :=
  {| iframes := {[ iframeId (theIframe st) := theIframe st ]};
     resources := [ {| resourceId := 1; hostWin := childWin |};
                    {| resourceId := 2; hostWin := other |};
                    {| resourceId := 3; hostWin := childWin |} ];
     services := {[ childWin := ["url-replace"%string]; other := ["viewer"%string] ]} |}.

(** An installation that completes: the iframe is ready at the first check
    and the load event follows. *)
Definition exampleIframe : HTMLIFrameElement :=
  newIframe 1 (Some (loadedWindow 7 [mkNode "DIV" []])).

Definition exampleRun : option Install :=
  (fun st => run st [LoadEvent TargetIframe])
    <$> installed exampleBrowser exampleIframe exampleSpec None.

(** An installation, then [destroy] on the embed it made, in a world that
    holds its iframe: the embed's reference, the resources left for its
    child window, and what the lookup by its iframe handle yields. *)
Definition destroyAfterInstall (r : option Install) (childWin other : nat)
    : option (nat * list Resource * option nat) :=
  st ← r;
  e ← theEmbed st;
  let w := destroy e (worldOf st childWin other) in
  Some (self e, registeredFor w childWin, lookupEmbed w (iframe_ e)).

(* ===================================================================== *)
(** ** Order of the installer's calls *)
(* ===================================================================== *)

(** The calls that make up the life of the embed: the fulfilment of the
    readiness wait, the construction, the installation of the extensions,
    the signals, and the settlement of the returned promise. *)
Definition lifecycleCall (c : Call) : bool :=
  match c with
  | ReadyResolved | NewEmbed _ | InstallExtensionsInChildWindow _ _ _
  | Signal _ | InstallResolved _ | InstallRejected _ => true
  | _ => false
  end.

(** A stretch of the trace without any of them. *)
Definition quiet (t : list Call) : Prop :=
  Forall (fun c => lifecycleCall c = false) t.

(** The calls of the callback of [readyPromise.then], for the embed it
    made and the outcome it gave the returned promise. *)
Definition continuationCalls (cfg : InstallConfig) (embed : FriendlyIframeEmbed)
    (outcome : InstallOutcome) (block : list Call) : Prop :=
  outcome <> InstallPending /\
  exists tail,
    block = NewEmbed (newRef (browser cfg))
            :: InstallExtensionsInChildWindow
                 (win embed) (default [] (extensionIds (theSpec cfg)))
                 (preinstallCallback cfg)
            :: tail /\
    forall ref, outcome = InstallFulfilled ref ->
      ref = newRef (browser cfg) /\ self embed = ref /\
      "render-start"%string ∈ signals_ embed /\
      exists styles,
        quiet styles /\
        tail = Signal "render-start" :: SetStyle "visibility" "" :: styles
               ++ [InstallResolved ref].

(** The installation while the readiness wait is on. *)
Definition waiting (st : Install) : Prop :=
  readyPromise st = false /\ installPromise st = InstallPending /\
  loadedPromise st = Pending /\ chained (config st) = true /\
  intervalActive st = true /\ quiet (trace st).

(** The installation once the readiness wait is over and the callback of
    [readyPromise.then] has run. *)
Definition completed (st : Install) : Prop :=
  readyPromise st = true /\ intervalActive st = false /\
  (forall ref, installPromise st = InstallFulfilled ref ->
     styleVisibility (theIframe st) = ""%string) /\
  exists before between block after embed,
    trace st = before ++ ReadyResolved :: between ++ block ++ after /\
    quiet before /\ quiet between /\ quiet after /\
    theEmbed st = Some embed /\
    continuationCalls (config st) embed (installPromise st) block.

(** What holds of an installation between two turns of the event loop. *)
Definition betweenTurns (st : Install) : Prop :=
  microtasks st = [] /\ (waiting st \/ completed st).

(** The end of the readiness wait: [resolve()], [clearInterval] and then
    the callback of [readyPromise.then]. *)
Definition finishWait (st : Install) : Install :=
  readyContinuation
    (set_microtasks []
       (set_intervalActive false
          (emit [ClearInterval] (set_readyPromise true (emit [ReadyResolved] st))))).

(* ===================================================================== *)
(** ** The embed and the iframe of an installation *)
(* ===================================================================== *)

(** [setSrcdocSupportedForTesting(val)]: the module-level cache after the
    call. *)
Definition setSrcdocSupportedForTesting (val : option bool) : option bool := val.

(** [mergeHtmlForTesting(spec)]. *)
Definition mergeHtmlForTesting (spec : FriendlyIframeSpec) : jsstring :=
  mergeHtml spec.

(** What an installation, started by browser [b] for [spec] on the iframe
    [iframe0], shows of its embed and its iframe: while the returned
    promise is pending there is no embed, the iframe is hidden and its
    properties are the ones it came with; afterwards the embed is the one
    the constructor made, it is the value of the iframe's embed property,
    and the iframe is shown exactly when installing the extensions did not
    throw. *)
Definition embedView (b : Browser) (spec : FriendlyIframeSpec)
    (iframe0 : HTMLIFrameElement) (st : Install) : Prop :=
  iframeId (theIframe st) = iframeId iframe0 /\
  match installPromise st with
  | InstallPending =>
      theEmbed st = None
      /\ expando (theIframe st) = expando iframe0
      /\ styleVisibility (theIframe st) = "hidden"%string
  | _ =>
      expando (theIframe st) = <[EMBED_PROP := newRef b]> (expando iframe0)
      /\ exists embed,
           theEmbed st = Some embed
           /\ self embed = newRef b
           /\ iframe_ embed = iframeId iframe0
           /\ spec_ embed = spec
           /\ visible_ embed = false
           /\ handlers_ (visibilityObservable_ embed) = []
           /\ match installExtensionsThrows b with
              | Some e =>
                  installPromise st = InstallFailed e
                  /\ styleVisibility (theIframe st) = "hidden"%string
                  /\ signals_ embed = []
              | None =>
                  styleVisibility (theIframe st) = ""%string
                  /\ signals_ embed = ["render-start"%string]
              end
  end.

(** The values that change the flag, one after the other, when they are
    set in order on a flag that is [current]. *)
Fixpoint changes (current : bool) (values : list bool) : list bool :=
  match values with
  | [] => []
  | v :: rest =>
      if Bool.eqb current v then changes current rest else v :: changes v rest
  end.

(** The calls of the polling and of the report of a load failure. *)
Definition waitCall (c : Call) : bool :=
  match c with
  | SetInterval _ | ClearInterval | RethrowAsync _ => true
  | _ => false
  end.

(* ===================================================================== *)
(** ** Strings: [substring] and [indexOf] *)
(* ===================================================================== *)

Lemma fold_left_push (f : jsstring -> jsstring) (fs : list jsstring) (r : list jsstring) :
  fold_left (fun r font => r ++ [f font]) fs r = r ++ map f fs.
Proof.
  revert r. induction fs as [|x fs IH]; intros r; simpl.
  - by rewrite app_nil_r.
  - rewrite IH. by rewrite <- app_assoc.
Qed.

Lemma substring_prefix (s : jsstring) (ip : Z) :
  0 <= ip -> substring s 0 (Some ip) = take (Z.to_nat ip) s.
Proof.
  intros Hip. unfold substring. simpl.
  replace (clampIndex 0 (jslength s)) with 0%nat by (unfold clampIndex, jslength; lia).
  rewrite Nat.min_0_l, Nat.max_0_l, Nat.sub_0_r. simpl.
  unfold clampIndex, jslength.
  destruct (decide (Z.to_nat ip <= length s)%nat) as [Hle|Hgt].
  - f_equal. lia.
  - rewrite (take_ge s (Z.to_nat ip)) by lia. apply take_ge. lia.
Qed.

Lemma substring_suffix (s : jsstring) (ip : Z) :
  0 <= ip -> substring s ip None = drop (Z.to_nat ip) s.
Proof.
  intros Hip. unfold substring. simpl.
  replace (clampIndex (jslength s) (jslength s)) with (length s)
    by (unfold clampIndex, jslength; lia).
  unfold clampIndex, jslength.
  destruct (decide (Z.to_nat ip <= length s)%nat) as [Hle|Hgt].
  - replace (Z.to_nat (Z.min (Z.max ip 0) (Z.of_nat (length s)))) with (Z.to_nat ip) by lia.
    rewrite Nat.min_l, Nat.max_r by lia.
    apply take_ge. rewrite length_drop. lia.
  - replace (Z.to_nat (Z.min (Z.max ip 0) (Z.of_nat (length s)))) with (length s) by lia.
    rewrite Nat.min_id, Nat.max_id, Nat.sub_diag.
    rewrite (drop_ge s (Z.to_nat ip)) by lia. done.
Qed.

(** The two halves [mergeHtml] cuts the document into make up the
    document again. *)
Lemma substring_halves (s : jsstring) (ip : Z) :
  0 <= ip -> substring s 0 (Some ip) ++ substring s ip None = s.
Proof.
  intros Hip. rewrite substring_prefix, substring_suffix by done.
  apply take_drop.
Qed.


Lemma startsWith_spec (p s : jsstring) :
  startsWith p s = true <-> exists post, s = p ++ post.
Proof.
  revert s. induction p as [|a p IH]; intros s; simpl.
  - split; [intros _; by exists s | done].
  - destruct s as [|b s].
    + split; [done | intros [post H]; discriminate].
    + rewrite andb_true_iff, N.eqb_eq, IH. split.
      * intros [-> [post ->]]. by exists post.
      * intros [post H]. injection H as -> ->. eauto.
Qed.

Lemma searchFrom_absent (p s : jsstring) (k : nat) :
  ~ occursIn p s -> searchFrom p s k = None.
Proof.
  revert k. induction s as [|a s IH]; intros k Hno; simpl.
  - destruct (startsWith p []) eqn:E; [|done].
    apply startsWith_spec in E as [post E]. exfalso. apply Hno.
    exists [], post. done.
  - destruct (startsWith p (a :: s)) eqn:E.
    + apply startsWith_spec in E as [post E]. exfalso. apply Hno.
      exists [], post. done.
    + apply IH. intros (pre & post & ->). apply Hno.
      exists (a :: pre), post. done.
Qed.

Lemma searchFrom_first (p s pre post : jsstring) (k : nat) :
  firstOccurrence p s pre post -> searchFrom p s k = Some (k + length pre)%nat.
Proof.
  revert s k. induction pre as [|a pre IH]; intros s k [-> Hmin].
  - assert (startsWith p ([] ++ p ++ post) = true) as E
      by (apply startsWith_spec; by exists post).
    destruct p, post; simpl in *; rewrite ?E; f_equal; lia.
  - assert (startsWith p ((a :: pre) ++ p ++ post) = false) as E.
    { destruct (startsWith p _) eqn:E; [|done].
      apply startsWith_spec in E as [post' E].
      specialize (Hmin [] post' E). simpl in Hmin. lia. }
    simpl in *. rewrite E.
    rewrite (IH (pre ++ p ++ post) (S k)).
    + f_equal. lia.
    + split; [done|]. intros pre' post' H'.
      specialize (Hmin (a :: pre') post'). simpl in Hmin.
      rewrite H' in Hmin. specialize (Hmin eq_refl). lia.
Qed.

Lemma searchFrom_sound (p s : jsstring) (k n : nat) :
  searchFrom p s k = Some n ->
  exists pre post, firstOccurrence p s pre post /\ n = (k + length pre)%nat.
Proof.
  revert k. induction s as [|a s IH]; intros k; simpl.
  - destruct (startsWith p []) eqn:E; [|done].
    intros [= <-]. apply startsWith_spec in E as [post E].
    exists [], post. split; [split|]; [done | simpl; lia | simpl; lia].
  - destruct (startsWith p (a :: s)) eqn:E.
    + intros [= <-]. apply startsWith_spec in E as [post E].
      exists [], post. split; [split|]; [done | simpl; lia | simpl; lia].
    + intros (pre & post & [-> Hmin] & ->)%IH.
      exists (a :: pre), post. split; [split|]; [done | | simpl; lia].
      intros [|a' pre'] post' H'.
      * assert (startsWith p (a :: pre ++ p ++ post) = true) as E'
          by (apply startsWith_spec; by exists post').
        congruence.
      * injection H' as _ H'. specialize (Hmin _ _ H'). simpl. lia.
Qed.

(** A leftmost occurrence is checked by running the search. *)
Lemma firstOccurrence_by_search (p s pre post : jsstring) :
  s = pre ++ p ++ post ->
  searchFrom p s 0 = Some (length pre) ->
  firstOccurrence p s pre post.
Proof.
  intros Hs (pre0 & post0 & [_ Hmin] & Hn)%searchFrom_sound.
  split; [done|]. intros pre' post' H'. specialize (Hmin _ _ H'). lia.
Qed.

(** The absence of a pattern is checked by running the search. *)
Lemma absent_by_search (p s : jsstring) :
  searchFrom p s 0 = None -> ~ occursIn p s.
Proof.
  intros Hnone (pre & post & Hs).
  destruct (searchFrom p s 0) eqn:E; [done|].
  clear Hnone. revert E. subst s. generalize 0%nat.
  induction pre as [|a pre IH]; intros k; simpl.
  - assert (startsWith p (p ++ post) = true) as E
      by (apply startsWith_spec; by exists post).
    destruct (p ++ post); simpl; by rewrite E.
  - destruct (startsWith p (a :: pre ++ p ++ post)); [done | apply IH].
Qed.

Lemma clampIndex_of_nat (k : nat) (s : jsstring) :
  (k <= length s)%nat -> clampIndex (Z.of_nat k) (jslength s) = k.
Proof. unfold clampIndex, jslength. lia. Qed.

Lemma indexOf_absent (s p : jsstring) (k : nat) :
  (k <= length s)%nat -> ~ occursIn p (drop k s) -> indexOf s p (Z.of_nat k) = -1.
Proof.
  intros Hk Hno. unfold indexOf. rewrite clampIndex_of_nat by done.
  by rewrite searchFrom_absent.
Qed.

Lemma indexOf_first (s p pre post : jsstring) (k : nat) :
  (k <= length s)%nat -> firstOccurrence p (drop k s) pre post ->
  indexOf s p (Z.of_nat k) = Z.of_nat (k + length pre).
Proof.
  intros Hk Hfirst. unfold indexOf. rewrite clampIndex_of_nat by done.
  by rewrite (searchFrom_first _ _ pre post).
Qed.

(** A single code unit occurs in a text exactly when it is an element. *)
Lemma occursIn_unit (c : N) (s : jsstring) : occursIn [c] s <-> c ∈ s.
Proof.
  split.
  - intros (pre & post & ->). rewrite !elem_of_app, list_elem_of_singleton. auto.
  - intros (pre & post & ->)%list_elem_of_split. by exists pre, post.
Qed.

Lemma firstOccurrence_unit (c : N) (a b : jsstring) :
  c ∉ a -> firstOccurrence [c] (a ++ c :: b) a b.
Proof.
  intros Hc. split; [done|]. intros pre' post' H.
  destruct (decide (length a <= length pre')%nat) as [|Hlt]; [done|].
  exfalso. apply Hc.
  assert (a !! length pre' = Some c) as Hl.
  { rewrite <- (lookup_app_l a (c :: b)) by lia. rewrite H.
    rewrite lookup_app_r by lia. by rewrite Nat.sub_diag. }
  by apply list_elem_of_lookup_2 in Hl.
Qed.
Lemma indexOf_gt_after (up pre tag post : jsstring) (c0 : N) :
  up = pre ++ (c0 :: tag) ++ post ->
  62%N ∉ tag ->
  (62%N ∉ post ->
     indexOf up (lit ">") (Z.of_nat (length pre) + 1) = -1) /\
  (forall a b, post = a ++ 62%N :: b -> 62%N ∉ a ->
     indexOf up (lit ">") (Z.of_nat (length pre) + 1)
     = Z.of_nat (length pre + 1 + length tag + length a)).
Proof.
  intros -> Htag.
  assert (drop (S (length pre)) (pre ++ (c0 :: tag) ++ post) = tag ++ post) as Hdrop.
  { rewrite drop_app_ge by lia.
    replace (S (length pre) - length pre)%nat with 1%nat by lia. done. }
  assert (S (length pre) <= length (pre ++ (c0 :: tag) ++ post))%nat as Hlen.
  { rewrite !length_app. simpl. lia. }
  replace (Z.of_nat (length pre) + 1) with (Z.of_nat (S (length pre))) by lia.
  split.
  - intros Hpost. apply indexOf_absent; [done|].
    rewrite Hdrop. change (lit ">") with [62%N].
    rewrite occursIn_unit, elem_of_app. tauto.
  - intros a b -> Ha.
    rewrite (indexOf_first _ _ (tag ++ a) b); [|done|].
    + rewrite length_app. f_equal. lia.
    + rewrite Hdrop. change (lit ">") with [62%N].
      rewrite app_assoc. apply firstOccurrence_unit.
      rewrite elem_of_app. tauto.
Qed.

Lemma not_sentinel (z : Z) : 0 <= z -> (z =? -1) = false.
Proof. intros Hz. apply Z.eqb_neq. lia. Qed.

Lemma head_tag_no_gt : 62%N ∉ lit "HEAD".
Proof. compute_done. Qed.

Lemma indexOf_first_0 (s p pre post : jsstring) :
  firstOccurrence p s pre post -> indexOf s p 0 = Z.of_nat (length pre).
Proof.
  intros H. apply (indexOf_first s p pre post 0); [lia | done].
Qed.

Lemma indexOf_absent_0 (s p : jsstring) :
  ~ occursIn p s -> indexOf s p 0 = -1.
Proof.
  intros H. apply (indexOf_absent s p 0); [lia | done].
Qed.

(** The insertion point when the first [<HEAD] is followed by a [>]. *)
Lemma insertionPoint_head_closed (up pre a b : jsstring) :
  firstOccurrence (lit "<HEAD") up pre (a ++ 62%N :: b) ->
  62%N ∉ a ->
  insertionPoint up = Z.of_nat (length pre + 5 + length a + 1).
Proof.
  intros Hfirst Ha. unfold insertionPoint.
  rewrite (indexOf_first_0 _ _ _ _ Hfirst).
  destruct (Z.eqb_spec (Z.of_nat (length pre)) (-1)) as [|_]; [lia|]. simpl negb. cbv iota.
  destruct Hfirst as [Hup _].
  destruct (indexOf_gt_after up pre (lit "HEAD") (a ++ 62%N :: b) 60%N Hup) as [_ Hgt].
  { apply head_tag_no_gt. }
  rewrite (Hgt a b eq_refl Ha).
  change (length (lit "HEAD")) with 4%nat.
  rewrite !(not_sentinel (Z.of_nat (length pre + 1 + 4 + length a) + 1)) by lia.
  lia.
Qed.

(** The insertion point when no [>] follows the first [<HEAD]. *)
Lemma insertionPoint_head_unclosed (up pre post : jsstring) :
  firstOccurrence (lit "<HEAD") up pre post ->
  62%N ∉ post ->
  insertionPoint up = 0.
Proof.
  intros Hfirst Hpost. unfold insertionPoint.
  rewrite (indexOf_first_0 _ _ _ _ Hfirst).
  destruct (Z.eqb_spec (Z.of_nat (length pre)) (-1)) as [|_]; [lia|]. simpl negb. cbv iota.
  destruct Hfirst as [Hup _].
  destruct (indexOf_gt_after up pre (lit "HEAD") post 60%N Hup) as [Hgt _].
  { apply head_tag_no_gt. }
  rewrite (Hgt Hpost). done.
Qed.

(** The insertion point when there is no [<HEAD] and a [<BODY]. *)
Lemma insertionPoint_body (up pre post : jsstring) :
  ~ occursIn (lit "<HEAD") up ->
  firstOccurrence (lit "<BODY") up pre post ->
  insertionPoint up = Z.of_nat (length pre).
Proof.
  intros Hno Hfirst. unfold insertionPoint.
  rewrite (indexOf_absent_0 _ _ Hno). simpl.
  rewrite (indexOf_first_0 _ _ _ _ Hfirst).
  destruct (Z.eqb_spec (Z.of_nat (length pre)) (-1)) as [|_]; [lia|]. done.
Qed.

Lemma insertionPoint_no_tags (up : jsstring) :
  ~ occursIn (lit "<HEAD") up ->
  ~ occursIn (lit "<BODY") up ->
  ~ occursIn (lit "<HTML") up ->
  insertionPoint up = -1.
Proof.
  intros Hh Hb Hl. unfold insertionPoint.
  rewrite (indexOf_absent_0 _ _ Hh). simpl.
  rewrite (indexOf_absent_0 _ _ Hb). simpl.
  rewrite (indexOf_absent_0 _ _ Hl). done.
Qed.

(* ===================================================================== *)
(** ** The HTML merger *)
(* ===================================================================== *)


Lemma mergeHtmlFrom_unfold (originalHtmlUp : jsstring) (spec : FriendlyIframeSpec) :
  mergeHtmlFrom originalHtmlUp spec =
    (if 0 <? insertionPoint originalHtmlUp
     then substring (html spec) 0 (Some (insertionPoint originalHtmlUp))
     else [])
    ++ baseTag (url spec) ++ fontLinks spec
    ++ (if 0 <? insertionPoint originalHtmlUp
        then substring (html spec) (insertionPoint originalHtmlUp) None
        else html spec).
Proof.
  unfold mergeHtmlFrom, fontLinks, join. cbv zeta.
  set (ip := insertionPoint _).
  destruct (fonts spec) as [fs|]; simpl default.
  - rewrite fold_left_push.
    destruct (0 <? ip); simpl; rewrite ?concat_app; simpl; rewrite ?app_nil_r, <- ?app_assoc; done.
  - destruct (0 <? ip); simpl; rewrite ?app_nil_r; done.
Qed.

Lemma mergeHtml_unfold (spec : FriendlyIframeSpec) :
  mergeHtml spec =
    (if 0 <? insertionPoint (toUpperCase (html spec))
     then substring (html spec) 0 (Some (insertionPoint (toUpperCase (html spec))))
     else [])
    ++ baseTag (url spec) ++ fontLinks spec
    ++ (if 0 <? insertionPoint (toUpperCase (html spec))
        then substring (html spec) (insertionPoint (toUpperCase (html spec))) None
        else html spec).
Proof. apply mergeHtmlFrom_unfold. Qed.

Lemma mergeHtmlFrom_prepends (originalHtmlUp : jsstring) (spec : FriendlyIframeSpec) :
  insertionPoint originalHtmlUp <= 0 ->
  mergeHtmlFrom originalHtmlUp spec = baseTag (url spec) ++ fontLinks spec ++ html spec.
Proof.
  intros Hip. rewrite mergeHtmlFrom_unfold.
  destruct (Z.ltb_spec 0 (insertionPoint originalHtmlUp)); [lia | done].
Qed.

Lemma mergeHtml_prepends (spec : FriendlyIframeSpec) :
  insertionPoint (toUpperCase (html spec)) <= 0 ->
  mergeHtml spec = baseTag (url spec) ++ fontLinks spec ++ html spec.
Proof.
  intros Hip. rewrite mergeHtml_unfold.
  destruct (Z.ltb_spec 0 (insertionPoint (toUpperCase (html spec)))); [lia | done].
Qed.


(* --------------------------------------------------------------------- *)
(** *** Where the indices of the upper-cased copy fit the original *)

Lemma toUpperCase_take (s : jsstring) (n : nat) :
  caseStable s -> toUpperCase (take n s) = take n (toUpperCase s).
Proof.
  unfold caseStable, toUpperCase. intros Hs. revert n.
  induction Hs as [|c s Hc _ IH]; intros [|n]; simpl; try done.
  destruct (upperUnit c) as [|u [|? ?]]; try done; simpl; by rewrite IH.
Qed.

Lemma toUpperCase_drop (s : jsstring) (n : nat) :
  caseStable s -> toUpperCase (drop n s) = drop n (toUpperCase s).
Proof.
  unfold caseStable, toUpperCase. intros Hs. revert n.
  induction Hs as [|c s Hc _ IH]; intros [|n]; simpl; try done.
  destruct (upperUnit c) as [|u [|? ?]]; try done; simpl; by rewrite IH.
Qed.

(** In the table of [upperUnit] only U+00DF has an upper case of another
    length. *)
Lemma caseStable_iff (s : jsstring) : caseStable s <-> 223%N ∉ s.
Proof.
  unfold caseStable. rewrite Forall_forall. split.
  - intros Hs Hin. specialize (Hs _ Hin). vm_compute in Hs. discriminate.
  - intros Hno c Hc. unfold upperUnit.
    destruct ((97 <=? c)%N && (c <=? 122)%N); [done|].
    destruct (c =? 181)%N; [done|].
    destruct (N.eqb_spec c 223) as [->|_]; [done|].
    destruct ((224 <=? c)%N && (c <=? 254)%N && negb (c =? 247)%N); [done|].
    by destruct (c =? 255)%N.
Qed.

(** X4.  On a document of code units up to U+00FF without U+00DF, whose
    first [<HEAD] (in any case) is followed by a [>], the base tag and the
    font links come right after that [>]: the text before them is, up to
    case, the document through the [>], the text after them the rest.
    This holds whether or not, and wherever, [<BODY] or [<HTML] occur. *)
Lemma mergeHtml_head_stable (spec : FriendlyIframeSpec) (pre a b : jsstring) :
  latin1 (html spec) ->
  223%N ∉ html spec ->
  firstOccurrence (lit "<HEAD") (toUpperCase (html spec)) pre (a ++ 62%N :: b) ->
  62%N ∉ a ->
  exists before after,
    html spec = before ++ after
    /\ toUpperCase before = pre ++ lit "<HEAD" ++ a ++ [62%N]
    /\ toUpperCase after = b
    /\ mergeHtml spec = before ++ baseTag (url spec) ++ fontLinks spec ++ after.
Proof.
  intros _ Hstable%caseStable_iff Hfirst Ha.
  pose proof (insertionPoint_head_closed _ _ _ _ Hfirst Ha) as Hip.
  destruct Hfirst as [Hup _].
  set (n := (length pre + 5 + length a + 1)%nat) in *.
  exists (take n (html spec)), (drop n (html spec)).
  assert (length (pre ++ lit "<HEAD" ++ a ++ [62%N]) = n) as Hlen.
  { rewrite !length_app. simpl. lia. }
  split; [by rewrite take_drop|]. split; [|split].
  - rewrite toUpperCase_take, Hup by done.
    replace (pre ++ lit "<HEAD" ++ a ++ 62%N :: b)
      with ((pre ++ lit "<HEAD" ++ a ++ [62%N]) ++ b)
      by (by rewrite <- !app_assoc).
    rewrite take_app_length'; done.
  - rewrite toUpperCase_drop, Hup by done.
    replace (pre ++ lit "<HEAD" ++ a ++ 62%N :: b)
      with ((pre ++ lit "<HEAD" ++ a ++ [62%N]) ++ b)
      by (by rewrite <- !app_assoc).
    rewrite drop_app_length'; done.
  - rewrite mergeHtml_unfold, Hip.
    destruct (Z.ltb_spec 0 (Z.of_nat n)) as [_|Hle]; [|lia].
    rewrite substring_prefix, substring_suffix by lia.
    by rewrite Nat2Z.id.
Qed.

(** X5.  On a document of code units up to U+00FF without U+00DF, with no
    [<HEAD] and with a [<BODY] (in any case), the base tag and the font
    links come right before the first [<BODY], whether or not [<HTML]
    occurs. *)
Lemma mergeHtml_body_stable (spec : FriendlyIframeSpec) (pre post : jsstring) :
  latin1 (html spec) ->
  223%N ∉ html spec ->
  ~ occursIn (lit "<HEAD") (toUpperCase (html spec)) ->
  firstOccurrence (lit "<BODY") (toUpperCase (html spec)) pre post ->
  exists before after,
    html spec = before ++ after
    /\ toUpperCase before = pre
    /\ toUpperCase after = lit "<BODY" ++ post
    /\ mergeHtml spec = before ++ baseTag (url spec) ++ fontLinks spec ++ after.
Proof.
  intros _ Hstable%caseStable_iff Hno Hfirst.
  pose proof (insertionPoint_body _ _ _ Hno Hfirst) as Hip.
  destruct Hfirst as [Hup _].
  exists (take (length pre) (html spec)), (drop (length pre) (html spec)).
  split; [by rewrite take_drop|]. split; [|split].
  - rewrite toUpperCase_take, Hup by done. by rewrite take_app_length.
  - rewrite toUpperCase_drop, Hup by done. by rewrite drop_app_length.
  - rewrite mergeHtml_unfold, Hip.
    destruct (Z.ltb_spec 0 (Z.of_nat (length pre))) as [Hpos|Hle].
    + rewrite substring_prefix, substring_suffix by lia. by rewrite Nat2Z.id.
    + assert (length pre = 0%nat) as -> by lia. by rewrite take_0, drop_0.
Qed.

(** C1.  The base tag goes to the index, in the original document, that
    the upper-cased copy gives for the end of the head tag.  For the
    document U+00DF followed by [<head>x</head>] the upper-cased copy is
    one unit longer before the tag, and the base tag is put after the
    [x] of the head content, not after the [>] that closes the head tag. *)
Theorem mergeHtml_head_after_sharp_s :
  toUpperCase (223%N :: lit "<head>x</head>") = lit "SS<HEAD>X</HEAD>"
  /\ insertionPoint (toUpperCase (223%N :: lit "<head>x</head>")) = 8
  /\ mergeHtml (mkSpec (lit "u") (223%N :: lit "<head>x</head>") None)
     = (223%N :: lit "<head>x") ++ baseTag (lit "u") ++ lit "</head>".
Proof. vm_compute. auto. Qed.

(** C2.  With no head tag, the base tag goes to the index that the
    upper-cased copy gives for [<BODY].  For the document U+00DF followed
    by [<body>hi</body>] that index is one past the [<] of the body tag
    in the original, and the base tag is put inside the tag. *)
Theorem mergeHtml_body_after_sharp_s :
  toUpperCase (223%N :: lit "<body>hi</body>") = lit "SS<BODY>HI</BODY>"
  /\ insertionPoint (toUpperCase (223%N :: lit "<body>hi</body>")) = 2
  /\ mergeHtml (mkSpec (lit "u") (223%N :: lit "<body>hi</body>") None)
     = (223%N :: lit "<") ++ baseTag (lit "u") ++ lit "body>hi</body>".
Proof. vm_compute. auto. Qed.

(** C3.  When the upper-cased copy of the document contains none of
    [<HEAD], [<BODY] and [<HTML], and likewise whenever the computed
    insertion point is exactly 0, the result is the [<base>] tag with the
    escaped URL, then one [<link>] tag per font, then the whole original
    document: nothing of the document comes before the injected tags.
    This holds whatever the upper-cased copy is, hence for every
    document. *)
Theorem mergeHtml_without_insertion_point (spec : FriendlyIframeSpec)
    (originalHtmlUp : jsstring) :
  (~ occursIn (lit "<HEAD") originalHtmlUp /\
   ~ occursIn (lit "<BODY") originalHtmlUp /\
   ~ occursIn (lit "<HTML") originalHtmlUp)
  \/ insertionPoint originalHtmlUp = 0 ->
  mergeHtmlFrom originalHtmlUp spec
  = (lit "<base href=" ++ dquote ++ escapeHtml (url spec) ++ dquote ++ lit ">")
    ++ concat (map (fun font =>
                      lit "<link href=" ++ dquote ++ escapeHtml font ++ dquote
                      ++ lit " rel=" ++ dquote ++ lit "stylesheet" ++ dquote
                      ++ lit " type=" ++ dquote ++ lit "text/css" ++ dquote
                      ++ lit ">") (default [] (fonts spec)))
    ++ html spec.
Proof.
  intros [(Hh & Hb & Hl) | H0]; apply mergeHtmlFrom_prepends.
  - rewrite insertionPoint_no_tags by done. lia.
  - lia.
Qed.

Lemma mergeHtml_without_insertion_point_witness :
  mergeHtml (mkSpec (lit "https://x.test/") (lit "Hello") (Some [lit "f.css"]))
  = lit "<base href=" ++ dquote ++ lit "https://x.test/" ++ dquote
    ++ lit "><link href=" ++ dquote ++ lit "f.css" ++ dquote
    ++ lit " rel=" ++ dquote ++ lit "stylesheet" ++ dquote
    ++ lit " type=" ++ dquote ++ lit "text/css" ++ dquote
    ++ lit ">Hello"
  /\ mergeHtml (mkSpec (lit "u") (lit "<body>hi</body>") None)
     = lit "<base href=" ++ dquote ++ lit "u" ++ dquote ++ lit "><body>hi</body>".
Proof.
  unfold mergeHtml. split.
  - etransitivity;
      [apply (mergeHtml_without_insertion_point
                (mkSpec (lit "https://x.test/") (lit "Hello") (Some [lit "f.css"]))
                (toUpperCase (lit "Hello")))
      | vm_compute; reflexivity].
    left. repeat split; apply absent_by_search; vm_compute; reflexivity.
  - etransitivity;
      [apply (mergeHtml_without_insertion_point
                (mkSpec (lit "u") (lit "<body>hi</body>") None)
                (toUpperCase (lit "<body>hi</body>")))
      | vm_compute; reflexivity].
    right. vm_compute. reflexivity.
Defined.

(** C10.  When no [>] follows the first [<HEAD] of the upper-cased
    document, the insertion point is 0 and the result is the [<base>] tag
    with the escaped URL, then one [<link>] tag per font, then the whole
    original document, whether or not [<BODY] or [<HTML] occur. *)
Theorem mergeHtml_unclosed_head (spec : FriendlyIframeSpec) (pre post : jsstring) :
  firstOccurrence (lit "<HEAD") (toUpperCase (html spec)) pre post ->
  62%N ∉ post ->
  insertionPoint (toUpperCase (html spec)) = 0
  /\ mergeHtml spec
     = (lit "<base href=" ++ dquote ++ escapeHtml (url spec) ++ dquote ++ lit ">")
       ++ concat (map (fun font =>
                         lit "<link href=" ++ dquote ++ escapeHtml font ++ dquote
                         ++ lit " rel=" ++ dquote ++ lit "stylesheet" ++ dquote
                         ++ lit " type=" ++ dquote ++ lit "text/css" ++ dquote
                         ++ lit ">") (default [] (fonts spec)))
       ++ html spec.
Proof.
  intros Hfirst Hpost.
  pose proof (insertionPoint_head_unclosed _ _ _ Hfirst Hpost) as H0.
  split; [done|]. apply mergeHtmlFrom_prepends. lia.
Qed.

Lemma mergeHtml_unclosed_head_witness :
  insertionPoint (toUpperCase (lit "<html><head <body")) = 0
  /\ mergeHtml (mkSpec (lit "u") (lit "<html><head <body") (Some [lit "f.css"]))
     = lit "<base href=" ++ dquote ++ lit "u" ++ dquote
       ++ lit "><link href=" ++ dquote ++ lit "f.css" ++ dquote
       ++ lit " rel=" ++ dquote ++ lit "stylesheet" ++ dquote
       ++ lit " type=" ++ dquote ++ lit "text/css" ++ dquote
       ++ lit "><html><head <body".
Proof.
  destruct (mergeHtml_unclosed_head
              (mkSpec (lit "u") (lit "<html><head <body") (Some [lit "f.css"]))
              (lit "<HTML>") (lit " <BODY")) as [H0 Hmerge].
  - apply firstOccurrence_by_search; vm_compute; reflexivity.
  - compute_done.
  - split; [exact H0|]. rewrite Hmerge. vm_compute. reflexivity.
Defined.

(* --------------------------------------------------------------------- *)
(** *** Escaping and the font links *)

Lemma countUnit_app (c : N) (s t : jsstring) :
  countUnit c (s ++ t) = (countUnit c s + countUnit c t)%nat.
Proof. unfold countUnit. by rewrite filter_app, length_app. Qed.

Lemma countUnit_absent (c : N) (s : jsstring) : c ∉ s -> countUnit c s = 0%nat.
Proof.
  intros Hc. unfold countUnit. induction s as [|x s IH]; [done|].
  apply not_elem_of_cons in Hc as [Hx Hs].
  rewrite filter_cons_False by congruence. auto.
Qed.

(** What [escapeHtmlChar] returns holds none of the characters that open
    or close markup or an attribute value. *)
Lemma escapeHtmlChar_clean (c x : N) :
  x ∈ escapeHtmlChar c -> x <> 60%N /\ x <> 62%N /\ x <> 34%N /\ x <> 39%N.
Proof.
  assert (forall l : jsstring,
            Forall (fun y => y <> 60%N /\ y <> 62%N /\ y <> 34%N /\ y <> 39%N) l ->
            x ∈ l -> x <> 60%N /\ x <> 62%N /\ x <> 34%N /\ x <> 39%N) as Hall.
  { intros l Hl Hx. by apply (proj1 (Forall_forall _ l) Hl x). }
  unfold escapeHtmlChar.
  destruct (N.eqb_spec c 38); [apply Hall; by compute_done|].
  destruct (N.eqb_spec c 60); [apply Hall; by compute_done|].
  destruct (N.eqb_spec c 62); [apply Hall; by compute_done|].
  destruct (N.eqb_spec c 34); [apply Hall; by compute_done|].
  destruct (N.eqb_spec c 39); [apply Hall; by compute_done|].
  rewrite list_elem_of_singleton. intros ->. done.
Qed.

Lemma escapeHtml_clean (text : jsstring) (x : N) :
  x ∈ escapeHtml text -> x <> 60%N /\ x <> 62%N /\ x <> 34%N /\ x <> 39%N.
Proof.
  unfold escapeHtml. induction text as [|c text IH]; simpl.
  - by intros ?%elem_of_nil.
  - intros [H|H]%elem_of_app; [by apply (escapeHtmlChar_clean c) | by apply IH].
Qed.

Lemma escapeHtml_app (s t : jsstring) :
  escapeHtml (s ++ t) = escapeHtml s ++ escapeHtml t.
Proof. unfold escapeHtml. apply flat_map_app. Qed.

Lemma countUnit_linkTag (font : jsstring) : countUnit 60 (linkTag font) = 1%nat.
Proof.
  unfold linkTag. rewrite !countUnit_app.
  rewrite (countUnit_absent 60 (escapeHtml font)).
  - reflexivity.
  - intros H. by destruct (escapeHtml_clean _ _ H) as [? _].
Qed.

Lemma countUnit_links (fs : list jsstring) :
  countUnit 60 (concat (map linkTag fs)) = length fs.
Proof.
  induction fs as [|f fs IH]; [done|].
  change (countUnit 60 (linkTag f ++ concat (map linkTag fs)) = S (length fs)).
  by rewrite countUnit_app, countUnit_linkTag, IH.
Qed.

(** C4.  For a spec with a fonts list, [mergeHtml] returns the part of the
    document before the insertion point, the one base tag, one link tag
    per font in the order of the list (each opens exactly one tag), and
    the part of the document from the insertion point on; the URLs of
    the base tag and of every link tag are the escaped ones, which hold no
    raw [<], [>], double quote or apostrophe and [&amp;] for an ampersand. *)
Theorem mergeHtml_fonts_in_order (spec : FriendlyIframeSpec) (fs : list jsstring) :
  fonts spec = Some fs ->
  mergeHtml spec =
    (if 0 <? insertionPoint (toUpperCase (html spec))
     then substring (html spec) 0 (Some (insertionPoint (toUpperCase (html spec))))
     else [])
    ++ (lit "<base href=" ++ dquote ++ escapeHtml (url spec) ++ dquote ++ lit ">")
    ++ concat (map (fun font =>
                      lit "<link href=" ++ dquote ++ escapeHtml font ++ dquote
                      ++ lit " rel=" ++ dquote ++ lit "stylesheet" ++ dquote
                      ++ lit " type=" ++ dquote ++ lit "text/css" ++ dquote
                      ++ lit ">") fs)
    ++ (if 0 <? insertionPoint (toUpperCase (html spec))
        then substring (html spec) (insertionPoint (toUpperCase (html spec))) None
        else html spec)
  /\ countUnit 60 (concat (map linkTag fs)) = length fs
  /\ (forall text x, x ∈ escapeHtml text ->
        x <> 60%N /\ x <> 62%N /\ x <> 34%N /\ x <> 39%N)
  /\ (forall s t, escapeHtml (s ++ 38%N :: t)
                  = escapeHtml s ++ lit "&amp;" ++ escapeHtml t).
Proof.
  intros Hfs. split; [|split; [|split]].
  - rewrite mergeHtml_unfold. unfold fontLinks. rewrite Hfs. reflexivity.
  - apply countUnit_links.
  - apply escapeHtml_clean.
  - intros s t. rewrite escapeHtml_app. reflexivity.
Qed.

Lemma mergeHtml_fonts_in_order_witness :
  mergeHtml (mkSpec (lit "https://x.test/a&b")
                    (lit "<html><head></head><body>hi</body></html>")
                    (Some [lit "https://f.test/a.css"]))
  = lit "<html><head><base href=" ++ dquote ++ lit "https://x.test/a&amp;b" ++ dquote
    ++ lit "><link href=" ++ dquote ++ lit "https://f.test/a.css" ++ dquote
    ++ lit " rel=" ++ dquote ++ lit "stylesheet" ++ dquote
    ++ lit " type=" ++ dquote ++ lit "text/css" ++ dquote
    ++ lit "></head><body>hi</body></html>".
Proof.
  destruct (mergeHtml_fonts_in_order
              (mkSpec (lit "https://x.test/a&b")
                      (lit "<html><head></head><body>hi</body></html>")
                      (Some [lit "https://f.test/a.css"]))
              [lit "https://f.test/a.css"] eq_refl) as [Hmerge _].
  rewrite Hmerge. vm_compute. reflexivity.
Defined.

(* ===================================================================== *)
(** ** The readiness predicate *)
(* ===================================================================== *)

(** C5.  [isIframeReady] is true exactly when the child window exists,
    its document is past the loading stage, the document has a body and
    the body has a child node.  With an empty body it is false, and once
    one child is appended, nothing else being changed, it is true (the
    window and a document past loading being there). *)
Theorem isIframeReady_spec (iframe : HTMLIFrameElement) :
  (isIframeReady iframe = true <->
     exists w doc b,
       contentWindow iframe = Some w /\ document w = Some doc /\
       isDocumentReady doc = true /\ body doc = Some b /\
       (0 < length (childNodesOf b))%nat)
  /\ (forall doc, isDocumentReady doc = true <-> readyState doc <> loading)
  /\ (forall w doc b,
        contentWindow iframe = Some w -> document w = Some doc ->
        body doc = Some b -> childNodesOf b = [] ->
        isIframeReady iframe = false
        /\ (isDocumentReady doc = true ->
            forall child,
              isIframeReady (updateBody (fun n => appendChild n child) iframe) = true)).
Proof.
  split; [|split].
  - unfold isIframeReady, firstChild. split.
    + destruct (contentWindow iframe) as [w|] eqn:Hw; [|done].
      destruct (document w) as [doc|] eqn:Hdoc; [|done].
      destruct (isDocumentReady doc) eqn:Hready; [|done].
      destruct (body doc) as [b|] eqn:Hbody; [|done].
      destruct (childNodesOf b) as [|c cs] eqn:Hcs; [done|]. intros _.
      exists w, doc, b. rewrite Hcs. simpl. repeat split; auto; lia.
    + intros (w & doc & b & -> & -> & -> & -> & Hlen).
      destruct (childNodesOf b); [simpl in Hlen; lia | done].
  - intros doc. unfold isDocumentReady. destruct (readyState doc); split; done.
  - intros w doc b Hw Hdoc Hbody Hcs. split.
    + unfold isIframeReady, firstChild. by rewrite Hw, Hdoc, Hbody, Hcs; destruct (isDocumentReady doc).
    + intros Hready child. unfold isIframeReady, updateBody, firstChild. simpl.
      rewrite Hw. simpl. rewrite Hdoc. simpl.
      unfold isDocumentReady in *. simpl. rewrite Hready. rewrite Hbody. simpl.
      destruct b as [name cs]. simpl in *. subst cs. done.
Qed.

Lemma isIframeReady_spec_witness :
  isIframeReady (newIframe 1 (Some (loadedWindow 7 []))) = false
  /\ isIframeReady (updateBody (fun n => appendChild n (mkNode "DIV" []))
                               (newIframe 1 (Some (loadedWindow 7 [])))) = true.
Proof.
  destruct (isIframeReady_spec (newIframe 1 (Some (loadedWindow 7 []))))
    as (_ & _ & Hbody).
  destruct (Hbody (loadedWindow 7 [])
                  {| readyState := complete; body := Some (mkNode "BODY" []) |}
                  (mkNode "BODY" []) eq_refl eq_refl eq_refl eq_refl)
    as [Hfalse Htrue].
  split; [exact Hfalse | exact (Htrue eq_refl (mkNode "DIV" []))].
Defined.

(* ===================================================================== *)
(** ** Visibility *)
(* ===================================================================== *)

Lemma subscribeAll_handlers (this : FriendlyIframeEmbed) (hs : list nat) :
  handlers_ (visibilityObservable_ (subscribeAll this hs))
  = handlers_ (visibilityObservable_ this) ++ hs
  /\ visible_ (subscribeAll this hs) = visible_ this.
Proof.
  unfold subscribeAll. revert this.
  induction hs as [|h hs IH]; intros this; simpl.
  - by rewrite app_nil_r.
  - destruct (IH (onVisibilityChanged this h)) as [-> ->]. simpl.
    by rewrite <- app_assoc.
Qed.

Lemma setVisible__same (this : FriendlyIframeEmbed) :
  setVisible_ this (visible_ this) = (this, []).
Proof. unfold setVisible_. by rewrite Bool.eqb_reflx. Qed.

Lemma setVisible__changed (this : FriendlyIframeEmbed) (visible : bool) :
  visible <> visible_ this ->
  setVisible_ this visible =
    ({| self := self this; iframe_ := iframe_ this; win := win this;
        spec_ := spec_ this; visible_ := visible;
        visibilityObservable_ := visibilityObservable_ this;
        signals_ := signals_ this |},
     map (fun h => Notify h visible) (handlers_ (visibilityObservable_ this))).
Proof.
  intros Hne. unfold setVisible_.
  destruct (Bool.eqb (visible_ this) visible) eqn:E; [|done].
  apply Bool.eqb_prop in E. congruence.
Qed.

(** C6.  [setVisible_] changes the flag and calls every subscribed handler,
    in subscription order and with the new value, exactly when the value
    differs from the flag; with the same value it changes nothing and
    calls no handler.  For an embed as constructed (flag false) with the
    handlers [hs] subscribed: setting false calls nothing; true, false,
    true calls every handler three times, with true, false and true. *)
Theorem setVisible__notifies_on_change (this : FriendlyIframeEmbed) (visible : bool) :
  (visible = visible_ this -> setVisible_ this visible = (this, []))
  /\ (visible <> visible_ this ->
        visible_ (setVisible_ this visible).1 = visible
        /\ visibilityObservable_ (setVisible_ this visible).1
           = visibilityObservable_ this
        /\ (setVisible_ this visible).2
           = map (fun h => Notify h visible) (handlers_ (visibilityObservable_ this)))
  /\ (forall ref iframe spec hs,
        visible_ (FriendlyIframeEmbed_new ref iframe spec) = false
        /\ (setVisibleAll (subscribeAll (FriendlyIframeEmbed_new ref iframe spec) hs)
                          [false]).2 = []
        /\ (setVisibleAll (subscribeAll (FriendlyIframeEmbed_new ref iframe spec) hs)
                          [true; false; true]).2
           = map (fun h => Notify h true) hs
             ++ map (fun h => Notify h false) hs
             ++ map (fun h => Notify h true) hs).
Proof.
  split; [|split].
  - intros ->. apply setVisible__same.
  - intros Hne. by rewrite setVisible__changed.
  - intros ref iframe spec hs.
    set (fresh := subscribeAll (FriendlyIframeEmbed_new ref iframe spec) hs).
    destruct (subscribeAll_handlers (FriendlyIframeEmbed_new ref iframe spec) hs)
      as [Hhs Hvis].
    fold fresh in Hhs, Hvis. simpl in Hhs, Hvis.
    split; [done|]. split.
    + pose proof (setVisible__same fresh) as Hsame. rewrite Hvis in Hsame.
      cbn [setVisibleAll]. by rewrite Hsame.
    + cbn [setVisibleAll].
      rewrite (setVisible__changed fresh true) by (rewrite Hvis; done).
      rewrite setVisible__changed by done. cbn [visibilityObservable_].
      rewrite setVisible__changed by done. cbn [visibilityObservable_ snd].
      by rewrite Hhs, app_nil_r.
Qed.

Lemma setVisible__notifies_on_change_witness :
  (setVisible_ (subscribeAll (FriendlyIframeEmbed_new 100 (newIframe 1 None) exampleSpec)
                             [11; 12]%nat) true).2
  = [Notify 11 true; Notify 12 true]
  /\ setVisible_ (FriendlyIframeEmbed_new 100 (newIframe 1 None) exampleSpec) false
     = (FriendlyIframeEmbed_new 100 (newIframe 1 None) exampleSpec, []).
Proof.
  split.
  - destruct (setVisible__notifies_on_change
                (subscribeAll (FriendlyIframeEmbed_new 100 (newIframe 1 None) exampleSpec)
                              [11; 12]%nat) true) as (_ & Hchanged & _).
    destruct Hchanged as (_ & _ & Hcalls); [discriminate|].
    rewrite Hcalls. reflexivity.
  - destruct (setVisible__notifies_on_change
                (FriendlyIframeEmbed_new 100 (newIframe 1 None) exampleSpec) false)
      as (Hsame & _).
    apply Hsame. reflexivity.
Defined.

(* ===================================================================== *)
(** ** Destruction *)
(* ===================================================================== *)

Lemma registeredFor_removed (w : World) (i : nat) :
  registeredFor (removeForChildWindow (Some i) w) i = [].
Proof.
  unfold registeredFor, removeForChildWindow. simpl.
  induction (resources w) as [|r rs IH]; [done|].
  destruct (decide (hostWin r = i)) as [Heq|Hne].
  - rewrite (filter_cons_False _ r rs); [done|]. simpl. intros H. apply H. by f_equal.
  - rewrite (filter_cons_True _ r rs) by (simpl; congruence).
    rewrite filter_cons_False by (simpl; done). done.
Qed.

Lemma registeredFor_other (w : World) (childWin : option nat) (i : nat) :
  childWin <> Some i ->
  registeredFor (removeForChildWindow childWin w) i = registeredFor w i.
Proof.
  intros Hne. unfold registeredFor, removeForChildWindow. simpl.
  induction (resources w) as [|r rs IH]; [done|].
  destruct (decide (hostWin r = i)) as [Heq|Hr].
  - rewrite (filter_cons_True (fun r => Some (hostWin r) <> childWin) r rs)
      by (simpl; congruence).
    rewrite !(filter_cons_True (fun r => hostWin r = i)) by (simpl; done).
    by rewrite IH.
  - rewrite (filter_cons_False (fun r => hostWin r = i) r rs) by (simpl; done).
    destruct (decide (Some (hostWin r) = childWin)) as [Hc|Hc].
    + rewrite (filter_cons_False _ r rs); [done|]. simpl. tauto.
    + rewrite (filter_cons_True _ r rs) by (simpl; done).
      by rewrite filter_cons_False by (simpl; done).
Qed.

(** C9, as amended.  After [destroy] no resource is registered for the
    embed's child window and no service is kept for it; the resources and
    services of other windows are as before; the iframe elements, and with
    them the back-reference from the iframe to the embed, are unchanged,
    so the lookup by iframe handle yields what it yielded before. *)
Theorem destroy_releases_child_window (this : FriendlyIframeEmbed) (w : World) :
  (forall i, win this = Some i ->
     registeredFor (destroy this w) i = []
     /\ services (destroy this w) !! i = None)
  /\ (forall i, win this <> Some i ->
        registeredFor (destroy this w) i = registeredFor w i
        /\ services (destroy this w) !! i = services w !! i)
  /\ iframes (destroy this w) = iframes w
  /\ (forall iframe, lookupEmbed (destroy this w) iframe = lookupEmbed w iframe).
Proof.
  unfold destroy. split; [|split; [|split]]; [| |done|done].
  - intros i Hwin. rewrite Hwin. split.
    + apply registeredFor_removed.
    + simpl. apply lookup_delete_eq.
  - intros i Hwin. split.
    + by apply registeredFor_other.
    + simpl. destruct (win this) as [j|]; [|done].
      apply lookup_delete_ne. congruence.
Qed.

Lemma destroy_releases_child_window_witness :
  registeredFor
    (destroy (FriendlyIframeEmbed_new 100 exampleIframe exampleSpec)
             {| iframes := {[ 1%nat := exampleIframe ]};
                resources := [ {| resourceId := 1; hostWin := 7 |};
                               {| resourceId := 2; hostWin := 8 |} ];
                services := {[ 7%nat := ["url-replace"%string] ]} |}) 7 = []
  /\ services
       (destroy (FriendlyIframeEmbed_new 100 exampleIframe exampleSpec)
                {| iframes := {[ 1%nat := exampleIframe ]};
                   resources := [ {| resourceId := 1; hostWin := 7 |};
                                  {| resourceId := 2; hostWin := 8 |} ];
                   services := {[ 7%nat := ["url-replace"%string] ]} |}) !! 7%nat = None.
Proof.
  destruct (destroy_releases_child_window
              (FriendlyIframeEmbed_new 100 exampleIframe exampleSpec)
              {| iframes := {[ 1%nat := exampleIframe ]};
                 resources := [ {| resourceId := 1; hostWin := 7 |};
                                {| resourceId := 2; hostWin := 8 |} ];
                 services := {[ 7%nat := ["url-replace"%string] ]} |})
    as (Hreleased & _).
  apply (Hreleased 7%nat). reflexivity.
Defined.

(** C9, the claim as stated fails: after an installation and [destroy] on
    its embed (reference 100), nothing is registered for the child window
    any more, and the lookup by the iframe handle still yields the
    embed. *)
Lemma destroy_keeps_back_reference :
  destroyAfterInstall exampleRun 7 8 = Some (100%nat, [], Some 100%nat).
Proof. vm_compute. reflexivity. Qed.

(* ===================================================================== *)
(** ** The installer *)
(* ===================================================================== *)

Ltac list_assoc :=
  repeat (rewrite <- app_assoc || rewrite <- app_comm_cons); try reflexivity.

Lemma Target_eqb_refl (t : Target) : Target_eqb t t = true.
Proof. by destruct t. Qed.

Lemma quiet_app (s t : list Call) : quiet s -> quiet t -> quiet (s ++ t).
Proof. unfold quiet. intros. by apply Forall_app. Qed.

Lemma quiet_loadExtensions (ids : list jsstring) : quiet (map LoadExtension ids).
Proof. unfold quiet. by induction ids; constructor. Qed.

(** The microtask checkpoint on an empty queue does nothing. *)
Lemma settle_idle (st : Install) : microtasks st = [] -> settle st = st.
Proof. unfold settle. intros ->. reflexivity. Qed.

(** The microtask checkpoint with the callback of [readyPromise.then]
    queued runs it. *)
Lemma settle_ready (st : Install) :
  microtasks st = [ReadyReaction] ->
  settle st = readyContinuation (set_microtasks [] st).
Proof.
  intros Hq. unfold settle. rewrite Hq. simpl. by rewrite Hq.
Qed.

Ltac continuation_fulfilled styles :=
  repeat split; try done;
  do 2 eexists; (split; [rewrite <- !app_assoc; reflexivity | split; [reflexivity|]]);
  (split; [done|]); eexists; (split; [reflexivity|]);
  intros ref [= <-]; repeat split; try done;
  [ unfold Signals_signal; simpl; apply list_elem_of_singleton; reflexivity
  | exists styles; split; [by repeat constructor | reflexivity] ].

Ltac continuation_failed :=
  repeat split; try done;
  do 2 eexists; (split; [rewrite <- !app_assoc; reflexivity | split; [reflexivity|]]);
  (split; [done|]); eexists; (split; [reflexivity|]);
  intros ref [=].

(** What the callback of [readyPromise.then] leaves as it found it, and
    the calls it makes. *)
Lemma readyContinuation_spec (st : Install) :
  config (readyContinuation st) = config st
  /\ loadedPromise (readyContinuation st) = loadedPromise st
  /\ intervalActive (readyContinuation st) = intervalActive st
  /\ readyPromise (readyContinuation st) = readyPromise st
  /\ microtasks (readyContinuation st) = microtasks st
  /\ (forall ref, installPromise (readyContinuation st) = InstallFulfilled ref ->
        styleVisibility (theIframe (readyContinuation st)) = ""%string)
  /\ exists block embed,
       trace (readyContinuation st) = trace st ++ block
       /\ theEmbed (readyContinuation st) = Some embed
       /\ continuationCalls (config st) embed
                            (installPromise (readyContinuation st)) block.
Proof.
  destruct st as [cfg ifr lp ia rp mt emb ip tr].
  destruct ifr as [iid cw sv rpol irs sd sr ex].
  unfold readyContinuation, startRender_. simpl.
  destruct (installExtensionsThrows (browser cfg)) as [e|].
  - simpl. continuation_failed.
  - destruct cw as [w|].
    + destruct (document w) as [doc|]; [destruct (body doc) as [b|]|]; simpl.
      * continuation_fulfilled [SetBodyStyles].
      * continuation_fulfilled (@nil Call).
      * continuation_fulfilled (@nil Call).
    + simpl. continuation_failed.
Qed.

Ltac destruct_install st :=
  let cfg := fresh "cfg" in
  destruct st as [cfg ? ? ? ? ? ? ? ?];
  destruct cfg as [? ? ? ? ? ?]; simpl in *.

(** The interval callback on a ready iframe ends the wait. *)
Lemma step_timer_ready (st : Install) :
  microtasks st = [] -> readyPromise st = false -> intervalActive st = true ->
  isIframeReady (theIframe st) = true ->
  step st TimerFired = finishWait st.
Proof.
  intros Hq Hr Hi Hready. unfold step, dispatch. rewrite Hi, Hready.
  destruct_install st. subst. reflexivity.
Qed.

(** The interval callback on an iframe that is not ready changes nothing. *)
Lemma step_timer_not_ready (st : Install) :
  microtasks st = [] -> isIframeReady (theIframe st) = false ->
  step st TimerFired = st.
Proof.
  intros Hq Hready. unfold step, dispatch. rewrite Hready.
  destruct (intervalActive st); by apply settle_idle.
Qed.

(** The error event of the loaded token's target during the wait: the
    error is rethrown asynchronously, and the wait ends. *)
Lemma step_error_waiting (st : Install) (e : Error) :
  microtasks st = [] -> readyPromise st = false ->
  loadedPromise st = Pending -> chained (config st) = true ->
  step st (ErrorEvent (loadTarget (config st)) e)
  = finishWait (emit [RethrowAsync e] (set_loadedPromise (Rejected e) st)).
Proof.
  intros Hq Hr Hl Hc. unfold step, dispatch, settleLoaded.
  rewrite Target_eqb_refl, Hl.
  destruct_install st. subst. reflexivity.
Qed.

(** The load event of the loaded token's target during the wait. *)
Lemma step_load_waiting (st : Install) :
  microtasks st = [] -> readyPromise st = false ->
  loadedPromise st = Pending -> chained (config st) = true ->
  step st (LoadEvent (loadTarget (config st)))
  = finishWait
      (set_loadedPromise Fulfilled
         match loadTarget (config st) with
         | TargetIframe =>
             set_theIframe
               (set_iframeReadyState (Some "complete"%string) (theIframe st)) st
         | TargetChildWindow => st
         end).
Proof.
  intros Hq Hr Hl Hc. unfold step, dispatch, settleLoaded.
  destruct_install st. subst.
  match goal with t : Target |- _ => destruct t end; reflexivity.
Qed.

(** An event for the other target during the wait leaves the promises
    and the trace as they are. *)
Lemma step_other_target (st : Install) (t : Target) (ev : Event) :
  microtasks st = [] ->
  Target_eqb t (loadTarget (config st)) = false ->
  ev = LoadEvent t \/ (exists e, ev = ErrorEvent t e) ->
  let st' := step st ev in
  microtasks st' = [] /\ config st' = config st /\ trace st' = trace st
  /\ readyPromise st' = readyPromise st /\ intervalActive st' = intervalActive st
  /\ installPromise st' = installPromise st /\ loadedPromise st' = loadedPromise st
  /\ theEmbed st' = theEmbed st
  /\ styleVisibility (theIframe st') = styleVisibility (theIframe st).
Proof.
  intros Hq Ht [->|[e ->]]; cbv zeta; unfold step, dispatch, settle;
    destruct_install st; subst;
    match goal with lt : Target |- _ => destruct t, lt; try discriminate end;
    simpl; done.
Qed.

(** Once the wait is over, an event adds at most quiet calls to the trace
    and leaves the promises, the embed and the iframe's style alone. *)
Lemma step_completed (st : Install) (ev : Event) :
  microtasks st = [] -> readyPromise st = true -> intervalActive st = false ->
  microtasks (step st ev) = [] /\ config (step st ev) = config st
  /\ readyPromise (step st ev) = true /\ intervalActive (step st ev) = false
  /\ installPromise (step st ev) = installPromise st
  /\ theEmbed (step st ev) = theEmbed st
  /\ styleVisibility (theIframe (step st ev)) = styleVisibility (theIframe st)
  /\ exists extra, quiet extra /\ trace (step st ev) = trace st ++ extra.
Proof.
  intros Hq Hr Hi. unfold step, dispatch, settleLoaded, settle.
  destruct_install st. subst.
  destruct ev as [w| |t|t e];
    try match goal with lt : Target |- _ => destruct t, lt end;
    try match goal with lp : Settled |- _ => destruct lp end;
    try match goal with ch : bool |- _ => destruct ch end;
    simpl; repeat split;
    first [ exists []; split; [constructor | by rewrite app_nil_r]
          | eexists; split; [|rewrite <- ?app_assoc; reflexivity];
            by repeat constructor ].
Qed.

Lemma runTask_config (t : Task) (st : Install) :
  config (runTask t st) = config st.
Proof.
  destruct t as [[e|]| |]; simpl.
  - reflexivity.
  - reflexivity.
  - unfold clearInterval, resolveReady. by destruct (readyPromise st).
  - by destruct (readyContinuation_spec st) as [-> _].
Qed.

Lemma drain_config (fuel : nat) (st : Install) :
  config (drain fuel st) = config st.
Proof.
  revert st. induction fuel as [|fuel IH]; intros st; simpl; [done|].
  destruct (microtasks st) as [|t q]; [done|].
  by rewrite IH, runTask_config.
Qed.

Lemma dispatch_config (ev : Event) (st : Install) :
  config (dispatch ev st) = config st.
Proof.
  destruct ev as [w| |t|t e]; unfold dispatch, settleLoaded.
  - reflexivity.
  - destruct (intervalActive st); [|done].
    destruct (isIframeReady (theIframe st)); [|done].
    unfold clearInterval, resolveReady. by destruct (readyPromise st).
  - set (st1 := match t with
                 | TargetIframe => _
                 | TargetChildWindow => st
                 end).
    assert (config st1 = config st /\ loadedPromise st1 = loadedPromise st)
      as [Hc Hl] by (by destruct t).
    destruct (Target_eqb t (loadTarget (config st1))); [|done].
    destruct (loadedPromise st1); try done.
    cbn [set_loadedPromise config]. destruct (chained (config st1)); done.
  - destruct (Target_eqb t (loadTarget (config st))); [|done].
    destruct (loadedPromise st); try done.
    cbn [set_loadedPromise config]. by destruct (chained (config st)).
Qed.

Lemma step_config (st : Install) (ev : Event) :
  config (step st ev) = config st.
Proof. unfold step, settle. by rewrite drain_config, dispatch_config. Qed.

(** The end of the wait leaves a completed installation. *)
Lemma finishWait_completed (st : Install) :
  quiet (trace st) ->
  microtasks (finishWait st) = [] /\ completed (finishWait st)
  /\ config (finishWait st) = config st
  /\ loadedPromise (finishWait st) = loadedPromise st
  /\ exists rest,
       trace (finishWait st) = trace st ++ ReadyResolved :: ClearInterval :: rest.
Proof.
  intros Hquiet. unfold finishWait.
  set (st1 := set_microtasks [] _).
  assert (trace st1 = trace st ++ [ReadyResolved; ClearInterval]) as Ht1
    by (subst st1; simpl; by rewrite <- app_assoc).
  assert (config st1 = config st) as Hc1 by reflexivity.
  assert (loadedPromise st1 = loadedPromise st) as Hl1 by reflexivity.
  assert (readyPromise st1 = true) as Hr1 by reflexivity.
  assert (intervalActive st1 = false) as Hi1 by reflexivity.
  assert (microtasks st1 = []) as Hm1 by reflexivity.
  clearbody st1.
  destruct (readyContinuation_spec st1)
    as (Hcfg & Hlp & Hia & Hrp & Hmt & Hstyle & block & embed & Htr & Hemb & Hblock).
  rewrite Hc1 in Hcfg, Hblock. rewrite Hl1 in Hlp. rewrite Hi1 in Hia.
  rewrite Hr1 in Hrp. rewrite Hm1 in Hmt.
  split; [done|]. split; [|split; [done|split; [done|]]].
  - split; [done|]. split; [done|]. split; [done|].
    exists (trace st), [ClearInterval], block, [], embed.
    rewrite Htr, Ht1, Hcfg, app_nil_r.
    split; [by rewrite <- !app_assoc|].
    split; [done|]. split; [by repeat constructor|]. split; [constructor|].
    split; done.
  - exists block. rewrite Htr, Ht1. by rewrite <- !app_assoc.
Qed.

(** The state the synchronous part of the installer leaves. *)
Lemma install_shape (b : Browser) (cache : option bool) (iframe : HTMLIFrameElement)
    (spec : FriendlyIframeSpec) (hook : option nat) (st0 : Install) :
  installFriendlyIframeEmbed b cache iframe spec hook = inl st0 ->
  exists ifr calls target cache',
    quiet calls /\
    st0 = {| config := {| browser := b; srcdocSupported := cache';
                          theSpec := spec; preinstallCallback := hook;
                          loadTarget := target;
                          chained := negb (isIframeReady ifr) |};
             theIframe := ifr;
             loadedPromise := Pending;
             intervalActive := negb (isIframeReady ifr);
             readyPromise := isIframeReady ifr;
             microtasks := if isIframeReady ifr then [ReadyReaction] else [];
             theEmbed := None;
             installPromise := InstallPending;
             trace := calls ++ (if isIframeReady ifr
                                then [ReadyResolved] else [SetInterval 5]) |}.
Proof.
  unfold installFriendlyIframeEmbed.
  destruct (isSrcdocSupported b cache) as [supported cache'].
  assert (quiet ([SetStyle "visibility" "hidden";
                  SetAttribute "referrerpolicy" "unsafe-url"]
                 ++ match extensionIds spec with
                    | Some ids => map LoadExtension ids
                    | None => []
                    end)) as Hpre.
  { apply quiet_app; [by repeat constructor|].
    destruct (extensionIds spec); [apply quiet_loadExtensions | constructor]. }
  destruct supported.
  - intros [= <-]. eexists.
    exists (([SetStyle "visibility" "hidden";
              SetAttribute "referrerpolicy" "unsafe-url"]
             ++ match extensionIds spec with
                | Some ids => map LoadExtension ids
                | None => []
                end)
            ++ [SetSrcdoc (mergeHtml spec); LoadPromise TargetIframe;
                ContainerAppendChild (iframeId iframe)]).
    do 2 eexists. split; [|reflexivity].
    apply quiet_app; [done | by repeat constructor].
  - simpl. destruct (contentWindow iframe) as [w|]; [|done].
    destruct (document w) as [doc|]; [|done].
    intros [= <-]. eexists.
    exists ((([SetStyle "visibility" "hidden";
               SetAttribute "referrerpolicy" "unsafe-url"]
              ++ match extensionIds spec with
                 | Some ids => map LoadExtension ids
                 | None => []
                 end)
             ++ [SetSrc "about:blank"; ContainerAppendChild (iframeId iframe)])
            ++ [DocumentOpen; DocumentWrite (mergeHtml spec);
                LoadPromise TargetChildWindow; DocumentClose]).
    do 2 eexists. split; [|reflexivity].
    apply quiet_app; [apply quiet_app; [done|] |]; by repeat constructor.
Qed.

(** After the calling script has ended, the installation is either
    waiting for readiness or completed. *)
Lemma install_betweenTurns (b : Browser) (cache : option bool)
    (iframe : HTMLIFrameElement) (spec : FriendlyIframeSpec) (hook : option nat)
    (st0 : Install) :
  installFriendlyIframeEmbed b cache iframe spec hook = inl st0 ->
  betweenTurns (settle st0)
  /\ browser (config (settle st0)) = b /\ theSpec (config (settle st0)) = spec
  /\ preinstallCallback (config (settle st0)) = hook.
Proof.
  intros (ifr & calls & target & cache' & Hquiet & ->)%install_shape.
  destruct (isIframeReady ifr) eqn:Hready.
  - rewrite settle_ready by reflexivity.
    set (st1 := set_microtasks [] _).
    assert (trace st1 = calls ++ [ReadyResolved]) as Ht1 by reflexivity.
    assert (config st1 = {| browser := b; srcdocSupported := cache';
                            theSpec := spec; preinstallCallback := hook;
                            loadTarget := target; chained := negb true |})
      as Hc1 by reflexivity.
    assert (readyPromise st1 = true) as Hr1 by reflexivity.
    assert (intervalActive st1 = false) as Hi1 by reflexivity.
    assert (microtasks st1 = []) as Hm1 by reflexivity.
    clearbody st1.
    destruct (readyContinuation_spec st1)
      as (Hcfg & Hlp & Hia & Hrp & Hmt & Hstyle & block & embed & Htr & Hemb & Hblock).
    rewrite Hi1 in Hia. rewrite Hr1 in Hrp. rewrite Hm1 in Hmt.
    rewrite Hcfg, Hc1. split; [|done].
    split; [done|]. right.
    split; [done|]. split; [done|]. split; [done|].
    exists calls, [], block, [], embed. rewrite Htr, Ht1, Hcfg, app_nil_r.
    split; [by rewrite <- !app_assoc|].
    split; [done|]. split; [constructor|]. split; [constructor|]. split; done.
  - rewrite settle_idle by reflexivity. split; [|done]. split; [done|]. left.
    split; [done|]. split; [done|]. split; [done|]. split; [done|]. split; [done|].
    simpl. apply quiet_app; [done | by repeat constructor].
Qed.

(** A turn of the event loop keeps the installation waiting or completed. *)
Lemma step_betweenTurns (st : Install) (ev : Event) :
  betweenTurns st -> betweenTurns (step st ev).
Proof.
  intros [Hq [Hwait|Hdone]].
  - destruct Hwait as (Hr & Hip & Hlp & Hch & Hia & Hquiet).
    destruct ev as [w| |t|t e].
    + (* DomChanged *)
      unfold step, dispatch. rewrite settle_idle by done.
      split; [done|]. left. by repeat split.
    + (* TimerFired *)
      destruct (isIframeReady (theIframe st)) eqn:Hready.
      * rewrite step_timer_ready by done.
        destruct (finishWait_completed st Hquiet) as (? & ? & _). split; [done|by right].
      * rewrite step_timer_not_ready by done. split; [done|]. left. by repeat split.
    + (* LoadEvent *)
      destruct (Target_eqb t (loadTarget (config st))) eqn:Ht.
      * assert (t = loadTarget (config st)) as -> by (by destruct t, (loadTarget (config st))).
        rewrite step_load_waiting by done.
        match goal with |- betweenTurns (finishWait ?s) =>
          destruct (finishWait_completed s) as (? & ? & _) end.
        { by destruct (loadTarget (config st)). }
        split; [done|by right].
      * destruct (step_other_target st t (LoadEvent t) Hq Ht)
          as (? & Hc' & Htr' & Hr' & Hi' & Hip' & Hlp' & _); [by left|].
        split; [done|]. left. unfold waiting.
        by rewrite Hc', Htr', Hr', Hi', Hip', Hlp'.
    + (* ErrorEvent *)
      destruct (Target_eqb t (loadTarget (config st))) eqn:Ht.
      * assert (t = loadTarget (config st)) as -> by (by destruct t, (loadTarget (config st))).
        rewrite step_error_waiting by done.
        match goal with |- betweenTurns (finishWait ?s) =>
          destruct (finishWait_completed s) as (? & ? & _) end.
        { simpl. apply quiet_app; [done | by repeat constructor]. }
        split; [done|by right].
      * destruct (step_other_target st t (ErrorEvent t e) Hq Ht)
          as (? & Hc' & Htr' & Hr' & Hi' & Hip' & Hlp' & _); [right; by exists e|].
        split; [done|]. left. unfold waiting.
        by rewrite Hc', Htr', Hr', Hi', Hip', Hlp'.
  - destruct Hdone as (Hr & Hia & Hstyle & before & between & block & after & embed
                       & Htr & Hqb & Hqm & Hqa & Hemb & Hblock).
    destruct (step_completed st ev Hq Hr Hia)
      as (Hq' & Hc' & Hr' & Hi' & Hip' & Hemb' & Hsv' & extra & Hqe & Htr').
    split; [done|]. right. split; [done|]. split; [done|].
    split; [intros ref; rewrite Hip', Hsv'; apply Hstyle|].
    exists before, between, block, (after ++ extra), embed.
    rewrite Htr', Htr, Hc', Hip', Hemb'.
    split; [list_assoc|]. split; [done|]. split; [done|].
    split; [by apply quiet_app|]. split; done.
Qed.

(** Every state of a run of a started installation is between turns, and
    the browser, the spec and the hook stay the ones of the call. *)
Lemma run_betweenTurns (b : Browser) (cache : option bool)
    (iframe : HTMLIFrameElement) (spec : FriendlyIframeSpec) (hook : option nat)
    (st0 : Install) (events : list Event) :
  installFriendlyIframeEmbed b cache iframe spec hook = inl st0 ->
  betweenTurns (run st0 events)
  /\ browser (config (run st0 events)) = b
  /\ theSpec (config (run st0 events)) = spec
  /\ preinstallCallback (config (run st0 events)) = hook.
Proof.
  intros Hinst%install_betweenTurns. unfold run.
  revert Hinst. generalize (settle st0). clear st0.
  induction events as [|ev events IH]; intros st Hst; simpl; [done|].
  apply IH. destruct Hst as (Hbt & Hb & Hs & Hh).
  split; [by apply step_betweenTurns|].
  rewrite step_config. done.
Qed.

(** The outcome the end of the wait gives the returned promise: it is
    fixed by the extension service and the child window alone. *)
Lemma finishWait_outcome (st : Install) :
  installPromise (finishWait st)
  = match installExtensionsThrows (browser (config st)) with
    | Some thrown => InstallFailed thrown
    | None =>
        match contentWindow (theIframe st) with
        | Some _ => InstallFulfilled (newRef (browser (config st)))
        | None => InstallFailed TypeError
        end
    end.
Proof.
  unfold finishWait, readyContinuation, startRender_.
  destruct_install st.
  match goal with b : Browser |- _ => destruct (installExtensionsThrows b) end;
    [reflexivity|].
  match goal with i : HTMLIFrameElement |- _ =>
    destruct i as [? [w|] ? ? ? ? ? ?] end; simpl; [|reflexivity].
  destruct (document w) as [doc|]; [destruct (body doc)|]; reflexivity.
Qed.

(** C7.  While the readiness wait is on, an error event of the loaded
    token's target rejects the token; the error is passed to
    [rethrowAsync], then the readiness promise is fulfilled and the
    interval cleared.  The returned promise is settled as it would be
    after a load event: rejected only if installing the extensions throws
    or the iframe has no child window, and fulfilled with the embed
    otherwise. *)
Theorem load_failure_during_wait (b : Browser) (cache : option bool)
    (iframe : HTMLIFrameElement) (spec : FriendlyIframeSpec) (hook : option nat)
    (st0 : Install) (events : list Event) (e : Error) :
  installFriendlyIframeEmbed b cache iframe spec hook = inl st0 ->
  readyPromise (run st0 events) = false ->
  let st := run st0 events in
  let st' := step st (ErrorEvent (loadTarget (config st)) e) in
  (exists rest,
     trace st' = trace st ++ RethrowAsync e :: ReadyResolved :: ClearInterval :: rest)
  /\ loadedPromise st' = Rejected e
  /\ intervalActive st = true /\ intervalActive st' = false
  /\ readyPromise st' = true
  /\ installPromise st' = installPromise (step st (LoadEvent (loadTarget (config st))))
  /\ installPromise st'
     = match installExtensionsThrows b with
       | Some thrown => InstallFailed thrown
       | None =>
           match contentWindow (theIframe st) with
           | Some _ => InstallFulfilled (newRef b)
           | None => InstallFailed TypeError
           end
       end.
Proof.
  intros Hinst Hwait. cbv zeta.
  destruct (run_betweenTurns _ _ _ _ _ _ events Hinst) as ([Hq Hst] & Hb & _).
  destruct Hst as [(Hr & Hip & Hlp & Hch & Hia & Hquiet) | (Hr & _)]; [|congruence].
  rewrite step_error_waiting, step_load_waiting by done.
  rewrite !finishWait_outcome.
  match goal with |- context [finishWait ?s] =>
    destruct (finishWait_completed s) as (_ & Hdone & _ & Hlp' & rest & Htr) end.
  { simpl. apply quiet_app; [done | by repeat constructor]. }
  destruct Hdone as (Hr' & Hia' & _).
  split; [|split; [|split; [|split; [|split; [|split]]]]]; try done.
  - exists rest. rewrite Htr. simpl. list_assoc.
  - destruct (loadTarget (config (run st0 events))); simpl; by rewrite Hb.
  - simpl. by rewrite Hb.
Qed.

Lemma load_failure_during_wait_witness :
  exists st0,
    installFriendlyIframeEmbed exampleBrowser None (newIframe 1 (Some (loadedWindow 7 [])))
                               exampleSpec None = inl st0
    /\ loadedPromise (step (run st0 [TimerFired]) (ErrorEvent TargetIframe (Thrown 3)))
       = Rejected (Thrown 3)
    /\ intervalActive (step (run st0 [TimerFired]) (ErrorEvent TargetIframe (Thrown 3)))
       = false
    /\ installPromise (step (run st0 [TimerFired]) (ErrorEvent TargetIframe (Thrown 3)))
       = InstallFulfilled 100.
Proof.
  eexists. split; [vm_compute; reflexivity|].
  match goal with |- context [run ?s _] =>
    destruct (load_failure_during_wait
                exampleBrowser None (newIframe 1 (Some (loadedWindow 7 []))) exampleSpec
                None s [TimerFired] (Thrown 3))
      as (_ & Hlp & _ & Hia & _ & _ & Hip)
  end.
  - vm_compute. reflexivity.
  - vm_compute. reflexivity.
  - split; [exact Hlp | split; [exact Hia | exact Hip]].
Defined.

(** C8.  In every run whose returned promise is fulfilled, the trace reads:
    the readiness promise is fulfilled; later the embed is constructed and
    [installExtensionsInChildWindow] is called with the embed's window,
    the extension ids of the spec (none when the spec has none) and the
    hook; then the render-start signal and the clearing of the iframe's
    visibility style; then the returned promise is fulfilled with the
    embed.  None of these calls occurs anywhere else in the trace, and
    the iframe's visibility style is empty at the end. *)
Theorem install_order (b : Browser) (cache : option bool)
    (iframe : HTMLIFrameElement) (spec : FriendlyIframeSpec) (hook : option nat)
    (st0 : Install) (events : list Event) (ref : nat) :
  installFriendlyIframeEmbed b cache iframe spec hook = inl st0 ->
  installPromise (run st0 events) = InstallFulfilled ref ->
  exists before between styles after embed,
    trace (run st0 events)
    = before ++ ReadyResolved :: between
      ++ [NewEmbed ref;
          InstallExtensionsInChildWindow (win embed)
            (default [] (extensionIds spec)) hook;
          Signal "render-start"; SetStyle "visibility" ""]
      ++ styles ++ InstallResolved ref :: after
    /\ quiet before /\ quiet between /\ quiet styles /\ quiet after
    /\ theEmbed (run st0 events) = Some embed /\ self embed = ref
    /\ "render-start"%string ∈ signals_ embed
    /\ styleVisibility (theIframe (run st0 events)) = ""%string.
Proof.
  intros Hinst Hok.
  destruct (run_betweenTurns _ _ _ _ _ _ events Hinst) as ([Hq Hst] & Hb & Hs & Hh).
  destruct Hst as [(_ & Hip & _) | Hdone]; [congruence|].
  destruct Hdone as (_ & _ & Hstyle & before & between & block & after & embed
                     & Htr & Hqb & Hqm & Hqa & Hemb & _ & tail & Hblock & Hfulfilled).
  destruct (Hfulfilled ref Hok) as (Href & Hself & Hsig & styles & Hqs & Htail).
  exists before, between, styles, after, embed.
  repeat split; try done; [|by apply (Hstyle ref)].
  rewrite Htr, Hblock, Htail, Href, Hs, Hh. simpl.
  by rewrite <- !app_assoc.
Qed.

Lemma install_order_witness :
  exists st0 before between styles after embed,
    installFriendlyIframeEmbed exampleBrowser None exampleIframe exampleSpec (Some 5%nat)
    = inl st0
    /\ trace (run st0 [LoadEvent TargetIframe])
       = before ++ ReadyResolved :: between
         ++ [NewEmbed 100;
             InstallExtensionsInChildWindow (win embed)
               (default [] (extensionIds exampleSpec)) (Some 5%nat);
             Signal "render-start"; SetStyle "visibility" ""]
         ++ styles ++ InstallResolved 100 :: after
    /\ styleVisibility (theIframe (run st0 [LoadEvent TargetIframe])) = ""%string.
Proof.
  eexists.
  match goal with |- context [inl ?s] =>
    destruct (install_order exampleBrowser None exampleIframe exampleSpec (Some 5%nat)
                            s [LoadEvent TargetIframe] 100)
      as (before & between & styles & after & embed & Htr & _ & _ & _ & _ & _ & _ & _ & Hsv)
  end.
  - vm_compute. reflexivity.
  - vm_compute. reflexivity.
  - exists before, between, styles, after, embed.
    split; [vm_compute; reflexivity|]. split; [exact Htr | exact Hsv].
Defined.

(* ===================================================================== *)
(** ** More on the HTML merger *)
(* ===================================================================== *)

Lemma html_tag_no_gt : 62%N ∉ lit "HTML".
Proof. compute_done. Qed.

(** The result of a search from a position lies in the text. *)
Lemma indexOf_range (s p : jsstring) (position : Z) :
  -1 <= indexOf s p position
  /\ (indexOf s p position <> -1 ->
      0 <= indexOf s p position
      /\ indexOf s p position + Z.of_nat (length p) <= Z.of_nat (length s)).
Proof.
  unfold indexOf. set (start := clampIndex position (jslength s)).
  assert (start <= length s)%nat as Hstart
    by (subst start; unfold clampIndex, jslength; lia).
  destruct (searchFrom p (drop start s) start) as [n|] eqn:E; [|split; [lia|done]].
  apply searchFrom_sound in E as (pre & post & [Hdrop _] & ->).
  assert (length (drop start s) = length (pre ++ p ++ post)) as Hlen by (by rewrite Hdrop).
  rewrite length_drop, !length_app in Hlen. split; [lia|]. intros _. lia.
Qed.

(** A pattern occurs in a text or it does not, as the search tells. *)
Lemma occursIn_search (p s : jsstring) :
  (exists pre post, firstOccurrence p s pre post) \/ ~ occursIn p s.
Proof.
  destruct (searchFrom p s 0) as [n|] eqn:E.
  - left. apply searchFrom_sound in E as (pre & post & Hfirst & _). eauto.
  - right. by apply absent_by_search.
Qed.

Lemma insertionPoint_html_closed (up pre a b : jsstring) :
  ~ occursIn (lit "<HEAD") up -> ~ occursIn (lit "<BODY") up ->
  firstOccurrence (lit "<HTML") up pre (a ++ 62%N :: b) ->
  62%N ∉ a ->
  insertionPoint up = Z.of_nat (length pre + 5 + length a + 1).
Proof.
  intros Hh Hb Hfirst Ha. unfold insertionPoint.
  rewrite (indexOf_absent_0 _ _ Hh). simpl.
  rewrite (indexOf_absent_0 _ _ Hb). simpl.
  rewrite (indexOf_first_0 _ _ _ _ Hfirst).
  rewrite not_sentinel by lia. simpl negb. cbv iota.
  destruct Hfirst as [Hup _].
  destruct (indexOf_gt_after up pre (lit "HTML") (a ++ 62%N :: b) 60%N Hup) as [_ Hgt];
    [apply html_tag_no_gt|].
  rewrite (Hgt a b eq_refl Ha).
  change (length (lit "HTML")) with 4%nat. lia.
Qed.

Lemma insertionPoint_html_unclosed (up pre post : jsstring) :
  ~ occursIn (lit "<HEAD") up -> ~ occursIn (lit "<BODY") up ->
  firstOccurrence (lit "<HTML") up pre post ->
  62%N ∉ post ->
  insertionPoint up = 0.
Proof.
  intros Hh Hb Hfirst Hpost. unfold insertionPoint.
  rewrite (indexOf_absent_0 _ _ Hh). simpl.
  rewrite (indexOf_absent_0 _ _ Hb). simpl.
  rewrite (indexOf_first_0 _ _ _ _ Hfirst).
  rewrite not_sentinel by lia. simpl negb. cbv iota.
  destruct Hfirst as [Hup _].
  destruct (indexOf_gt_after up pre (lit "HTML") post 60%N Hup) as [Hgt _];
    [apply html_tag_no_gt|].
  by rewrite (Hgt Hpost).
Qed.

(** X1.  Whatever the document, [mergeHtml] cuts it in two and puts the
    base tag and the font links in between: no code unit of the document
    is dropped, repeated or moved, and the result is longer than the
    document by the length of the inserted tags. *)
Theorem mergeHtml_keeps_document (spec : FriendlyIframeSpec) :
  exists before after,
    html spec = before ++ after
    /\ mergeHtml spec = before ++ baseTag (url spec) ++ fontLinks spec ++ after
    /\ length (mergeHtml spec)
       = (length (html spec) + length (baseTag (url spec))
          + length (fontLinks spec))%nat.
Proof.
  assert (exists before after,
            html spec = before ++ after
            /\ mergeHtml spec = before ++ baseTag (url spec) ++ fontLinks spec ++ after)
    as (before & after & Hdoc & Hmerge).
  { rewrite mergeHtml_unfold.
    destruct (Z.ltb_spec 0 (insertionPoint (toUpperCase (html spec)))) as [Hpos|Hle].
    - eexists _, _. split; [|reflexivity]. by rewrite substring_halves by lia.
    - by exists [], (html spec). }
  exists before, after. split; [done|]. split; [done|].
  rewrite Hmerge, Hdoc, !length_app. lia.
Qed.

(** X2.  The insertion point is [-1] exactly when the upper-cased document
    contains none of [<HEAD], [<BODY] and [<HTML]; otherwise it is a
    position of the upper-cased document, from 0 to its length. *)
Theorem insertionPoint_range (up : jsstring) :
  (insertionPoint up = -1 <->
     ~ occursIn (lit "<HEAD") up /\ ~ occursIn (lit "<BODY") up
     /\ ~ occursIn (lit "<HTML") up)
  /\ -1 <= insertionPoint up <= Z.of_nat (length up).
Proof.
  assert (forall i, 0 <= indexOf up (lit ">") i + 1 <= Z.of_nat (length up)) as Hgt.
  { intros i. destruct (indexOf_range up (lit ">") i) as [Hlow Hhigh].
    destruct (decide (indexOf up (lit ">") i = -1)) as [->|Hne]; [lia|].
    specialize (Hhigh Hne). change (length (lit ">")) with 1%nat in Hhigh. lia. }
  assert (forall p, length p = 5%nat ->
            (exists pre post, firstOccurrence p up pre post) ->
            0 <= indexOf up p 0 <= Z.of_nat (length up)) as Hfound.
  { intros p Hp (pre & post & Hfirst).
    rewrite (indexOf_first_0 _ _ _ _ Hfirst). destruct Hfirst as [-> _].
    rewrite !length_app. lia. }
  unfold insertionPoint.
  destruct (occursIn_search (lit "<HEAD") up) as [Hhead|Hhead].
  - pose proof (Hfound (lit "<HEAD") eq_refl Hhead) as Hi.
    rewrite (not_sentinel (indexOf up (lit "<HEAD") 0)) by lia. simpl negb. cbv iota.
    specialize (Hgt (indexOf up (lit "<HEAD") 0 + 1)).
    rewrite !(not_sentinel (indexOf up (lit ">") _ + 1)) by lia. split; [|lia].
    split; [lia|]. intros (Hno & _). destruct Hhead as (pre & post & [-> _]).
    exfalso. apply Hno. by exists pre, post.
  - rewrite (indexOf_absent_0 _ _ Hhead). simpl.
    destruct (occursIn_search (lit "<BODY") up) as [Hbody|Hbody].
    + pose proof (Hfound (lit "<BODY") eq_refl Hbody) as Hi.
      rewrite !(not_sentinel (indexOf up (lit "<BODY") 0)) by lia. split; [|lia].
      split; [lia|]. intros (_ & Hno & _). destruct Hbody as (pre & post & [-> _]).
      exfalso. apply Hno. by exists pre, post.
    + rewrite (indexOf_absent_0 _ _ Hbody). simpl.
      destruct (occursIn_search (lit "<HTML") up) as [Hhtml|Hhtml].
      * pose proof (Hfound (lit "<HTML") eq_refl Hhtml) as Hi.
        rewrite (not_sentinel (indexOf up (lit "<HTML") 0)) by lia. simpl negb. cbv iota.
        specialize (Hgt (indexOf up (lit "<HTML") 0 + 1)). split; [|lia].
        split; [lia|]. intros (_ & _ & Hno). destruct Hhtml as (pre & post & [-> _]).
        exfalso. apply Hno. by exists pre, post.
      * rewrite (indexOf_absent_0 _ _ Hhtml). simpl. split; [|lia]. done.
Qed.

(** X3.  On a document of code units up to U+00FF with neither [<HEAD] nor
    [<BODY] (in any case), the first [<HTML] decides: when a [>] follows
    it and the document holds no U+00DF, the base tag and the font links
    come right after that [>]; when none follows, the insertion point is 0
    and they come before the whole document. *)
Theorem mergeHtml_html_fallback (spec : FriendlyIframeSpec) (pre post : jsstring) :
  latin1 (html spec) ->
  ~ occursIn (lit "<HEAD") (toUpperCase (html spec)) ->
  ~ occursIn (lit "<BODY") (toUpperCase (html spec)) ->
  firstOccurrence (lit "<HTML") (toUpperCase (html spec)) pre post ->
  (forall a b, post = a ++ 62%N :: b -> 62%N ∉ a -> 223%N ∉ html spec ->
     exists before after,
       html spec = before ++ after
       /\ toUpperCase before = pre ++ lit "<HTML" ++ a ++ [62%N]
       /\ toUpperCase after = b
       /\ mergeHtml spec = before ++ baseTag (url spec) ++ fontLinks spec ++ after)
  /\ (62%N ∉ post ->
      mergeHtml spec = baseTag (url spec) ++ fontLinks spec ++ html spec).
Proof.
  intros _ Hh Hb Hfirst. split.
  - intros a b -> Ha Hstable%caseStable_iff.
    pose proof (insertionPoint_html_closed _ _ _ _ Hh Hb Hfirst Ha) as Hip.
    destruct Hfirst as [Hup _].
    set (n := (length pre + 5 + length a + 1)%nat) in *.
    exists (take n (html spec)), (drop n (html spec)).
    assert (length (pre ++ lit "<HTML" ++ a ++ [62%N]) = n) as Hlen.
    { rewrite !length_app. simpl. lia. }
    assert (pre ++ lit "<HTML" ++ a ++ 62%N :: b
            = (pre ++ lit "<HTML" ++ a ++ [62%N]) ++ b) as Hassoc
      by (by rewrite <- !app_assoc).
    split; [by rewrite take_drop|]. split; [|split].
    + rewrite toUpperCase_take, Hup, Hassoc by done. by rewrite take_app_length'.
    + rewrite toUpperCase_drop, Hup, Hassoc by done. by rewrite drop_app_length'.
    + rewrite mergeHtml_unfold, Hip.
      destruct (Z.ltb_spec 0 (Z.of_nat n)) as [_|Hle]; [|lia].
      rewrite substring_prefix, substring_suffix by lia. by rewrite Nat2Z.id.
  - intros Hpost. apply mergeHtml_prepends.
    rewrite (insertionPoint_html_unclosed _ _ _ Hh Hb Hfirst Hpost). lia.
Qed.

Lemma mergeHtml_html_fallback_witness :
  (exists before after,
     lit "<!doctype html><html lang=en>text" = before ++ after
     /\ toUpperCase before = lit "<!DOCTYPE HTML>" ++ lit "<HTML" ++ lit " LANG=EN" ++ [62%N]
     /\ toUpperCase after = lit "TEXT"
     /\ mergeHtml (mkSpec (lit "u") (lit "<!doctype html><html lang=en>text") None)
        = before ++ baseTag (lit "u")
          ++ fontLinks (mkSpec (lit "u") (lit "<!doctype html><html lang=en>text") None)
          ++ after)
  /\ mergeHtml (mkSpec (lit "u") (lit "a<html") None)
     = baseTag (lit "u") ++ fontLinks (mkSpec (lit "u") (lit "a<html") None)
       ++ lit "a<html".
Proof.
  split.
  - destruct (mergeHtml_html_fallback
                (mkSpec (lit "u") (lit "<!doctype html><html lang=en>text") None)
                (lit "<!DOCTYPE HTML>") (lit " LANG=EN>TEXT")) as [Hclosed _].
    + unfold latin1. compute_done.
    + apply absent_by_search. vm_compute. reflexivity.
    + apply absent_by_search. vm_compute. reflexivity.
    + apply firstOccurrence_by_search; vm_compute; reflexivity.
    + apply (Hclosed (lit " LANG=EN") (lit "TEXT")).
      * reflexivity.
      * compute_done.
      * compute_done.
  - destruct (mergeHtml_html_fallback (mkSpec (lit "u") (lit "a<html") None)
                (lit "A") []) as [_ Hopen].
    + unfold latin1. compute_done.
    + apply absent_by_search. vm_compute. reflexivity.
    + apply absent_by_search. vm_compute. reflexivity.
    + apply firstOccurrence_by_search; vm_compute; reflexivity.
    + apply Hopen. compute_done.
Defined.

Lemma mergeHtml_head_stable_witness :
  exists before after,
    lit "<html><body></body><head id=h>x</head></html>" = before ++ after
    /\ toUpperCase before
       = lit "<HTML><BODY></BODY>" ++ lit "<HEAD" ++ lit " ID=H" ++ [62%N]
    /\ toUpperCase after = lit "X</HEAD></HTML>"
    /\ mergeHtml (mkSpec (lit "u") (lit "<html><body></body><head id=h>x</head></html>")
                         None)
       = before ++ baseTag (lit "u")
         ++ fontLinks (mkSpec (lit "u")
                              (lit "<html><body></body><head id=h>x</head></html>") None)
         ++ after.
Proof.
  apply (mergeHtml_head_stable
           (mkSpec (lit "u") (lit "<html><body></body><head id=h>x</head></html>") None)
           (lit "<HTML><BODY></BODY>") (lit " ID=H") (lit "X</HEAD></HTML>")).
  - unfold latin1. compute_done.
  - compute_done.
  - apply firstOccurrence_by_search; vm_compute; reflexivity.
  - compute_done.
Defined.

Lemma mergeHtml_body_stable_witness :
  exists before after,
    lit "<html><body class=a>hi</body></html>" = before ++ after
    /\ toUpperCase before = lit "<HTML>"
    /\ toUpperCase after = lit "<BODY" ++ lit " CLASS=A>HI</BODY></HTML>"
    /\ mergeHtml (mkSpec (lit "u") (lit "<html><body class=a>hi</body></html>") None)
       = before ++ baseTag (lit "u")
         ++ fontLinks (mkSpec (lit "u") (lit "<html><body class=a>hi</body></html>") None)
         ++ after.
Proof.
  apply (mergeHtml_body_stable
           (mkSpec (lit "u") (lit "<html><body class=a>hi</body></html>") None)
           (lit "<HTML>") (lit " CLASS=A>HI</BODY></HTML>")).
  - unfold latin1. compute_done.
  - compute_done.
  - apply absent_by_search. vm_compute. reflexivity.
  - apply firstOccurrence_by_search; vm_compute; reflexivity.
Defined.

(* ===================================================================== *)
(** ** More on the installer *)
(* ===================================================================== *)

(** The embed the callback of [readyPromise.then] makes, and what it does
    to the iframe. *)
Lemma readyContinuation_effects (st : Install) :
  iframeId (theIframe (readyContinuation st)) = iframeId (theIframe st)
  /\ contentWindow (theIframe (readyContinuation st)) = contentWindow (theIframe st)
  /\ expando (theIframe (readyContinuation st))
     = <[EMBED_PROP := newRef (browser (config st))]> (expando (theIframe st))
  /\ exists embed,
       theEmbed (readyContinuation st) = Some embed
       /\ self embed = newRef (browser (config st))
       /\ iframe_ embed = iframeId (theIframe st)
       /\ win embed = windowId <$> contentWindow (theIframe st)
       /\ spec_ embed = theSpec (config st)
       /\ visible_ embed = false
       /\ handlers_ (visibilityObservable_ embed) = []
       /\ match installExtensionsThrows (browser (config st)) with
          | Some e =>
              installPromise (readyContinuation st) = InstallFailed e
              /\ styleVisibility (theIframe (readyContinuation st))
                 = styleVisibility (theIframe st)
              /\ signals_ embed = []
              /\ trace (readyContinuation st)
                 = trace st
                   ++ [NewEmbed (newRef (browser (config st)));
                       InstallExtensionsInChildWindow
                         (windowId <$> contentWindow (theIframe st))
                         (default [] (extensionIds (theSpec (config st))))
                         (preinstallCallback (config st));
                       InstallRejected e]
          | None =>
              styleVisibility (theIframe (readyContinuation st)) = ""%string
              /\ signals_ embed = ["render-start"%string]
          end.
Proof.
  destruct st as [cfg ifr lp ia rp mt emb ip tr].
  destruct ifr as [iid cw sv rpol irs sd sr ex].
  unfold readyContinuation, startRender_. simpl.
  destruct (installExtensionsThrows (browser cfg)) as [e|].
  - simpl. split; [done|]. split; [done|]. split; [done|].
    eexists. split; [reflexivity|]. simpl. repeat split. by list_assoc.
  - destruct cw as [w|]; [destruct (document w) as [doc|]; [destruct (body doc)|]|];
      simpl; (split; [done|]); (split; [done|]); (split; [done|]);
      (eexists; split; [reflexivity|]); simpl; repeat split.
Qed.

(** The same for the end of the readiness wait. *)
Lemma finishWait_effects (st : Install) :
  iframeId (theIframe (finishWait st)) = iframeId (theIframe st)
  /\ contentWindow (theIframe (finishWait st)) = contentWindow (theIframe st)
  /\ expando (theIframe (finishWait st))
     = <[EMBED_PROP := newRef (browser (config st))]> (expando (theIframe st))
  /\ exists embed,
       theEmbed (finishWait st) = Some embed
       /\ self embed = newRef (browser (config st))
       /\ iframe_ embed = iframeId (theIframe st)
       /\ win embed = windowId <$> contentWindow (theIframe st)
       /\ spec_ embed = theSpec (config st)
       /\ visible_ embed = false
       /\ handlers_ (visibilityObservable_ embed) = []
       /\ match installExtensionsThrows (browser (config st)) with
          | Some e =>
              installPromise (finishWait st) = InstallFailed e
              /\ styleVisibility (theIframe (finishWait st))
                 = styleVisibility (theIframe st)
              /\ signals_ embed = []
              /\ trace (finishWait st)
                 = trace st
                   ++ [ReadyResolved; ClearInterval;
                       NewEmbed (newRef (browser (config st)));
                       InstallExtensionsInChildWindow
                         (windowId <$> contentWindow (theIframe st))
                         (default [] (extensionIds (theSpec (config st))))
                         (preinstallCallback (config st));
                       InstallRejected e]
          | None =>
              styleVisibility (theIframe (finishWait st)) = ""%string
              /\ signals_ embed = ["render-start"%string]
          end.
Proof.
  unfold finishWait. set (st1 := set_microtasks [] _).
  assert (theIframe st1 = theIframe st) as Hi by reflexivity.
  assert (config st1 = config st) as Hc by reflexivity.
  assert (trace st1 = trace st ++ [ReadyResolved; ClearInterval]) as Ht
    by (subst st1; simpl; by list_assoc).
  clearbody st1.
  destruct (readyContinuation_effects st1) as (Hid & Hcw & Hex & embed & Hemb & Hrest).
  rewrite Hi, Hc in *. rewrite Ht in Hrest.
  split; [done|]. split; [done|]. split; [done|]. exists embed. split; [done|].
  destruct Hrest as (? & ? & ? & ? & ? & ? & Hcase).
  repeat (split; [done|]).
  destruct (installExtensionsThrows (browser (config st))); [|done].
  destruct Hcase as (? & ? & ? & Htr). repeat (split; [done|]).
  rewrite Htr. by list_assoc.
Qed.

(** The state the synchronous part of the installer leaves, in full. *)
Lemma install_start (b : Browser) (cache : option bool) (iframe : HTMLIFrameElement)
    (spec : FriendlyIframeSpec) (hook : option nat) (st0 : Install) :
  installFriendlyIframeEmbed b cache iframe spec hook = inl st0 ->
  st0 =
    {| config :=
         {| browser := b;
            srcdocSupported := Some (isSrcdocSupported b cache).1;
            theSpec := spec; preinstallCallback := hook;
            loadTarget := if (isSrcdocSupported b cache).1
                          then TargetIframe else TargetChildWindow;
            chained := negb (isIframeReady iframe) |};
       theIframe :=
         (if (isSrcdocSupported b cache).1
          then set_srcdoc (Some (mergeHtml spec))
          else set_src (Some "about:blank"%string))
           (set_referrerpolicy (Some "unsafe-url"%string)
              (set_styleVisibility "hidden" iframe));
       loadedPromise := Pending;
       intervalActive := negb (isIframeReady iframe);
       readyPromise := isIframeReady iframe;
       microtasks := if isIframeReady iframe then [ReadyReaction] else [];
       theEmbed := None;
       installPromise := InstallPending;
       trace :=
         [SetStyle "visibility" "hidden"; SetAttribute "referrerpolicy" "unsafe-url"]
         ++ map LoadExtension (default [] (extensionIds spec))
         ++ (if (isSrcdocSupported b cache).1
             then [SetSrcdoc (mergeHtml spec); LoadPromise TargetIframe;
                   ContainerAppendChild (iframeId iframe)]
             else [SetSrc "about:blank"; ContainerAppendChild (iframeId iframe);
                   DocumentOpen; DocumentWrite (mergeHtml spec);
                   LoadPromise TargetChildWindow; DocumentClose])
         ++ (if isIframeReady iframe then [ReadyResolved] else [SetInterval 5]) |}.
Proof.
  unfold installFriendlyIframeEmbed.
  assert ((isSrcdocSupported b cache).2 = Some (isSrcdocSupported b cache).1) as Hcache
    by (by destruct cache).
  destruct (isSrcdocSupported b cache) as [supported cache']. simpl in *. subst cache'.
  destruct supported.
  - intros [= <-]. f_equal. destruct (extensionIds spec); simpl; by list_assoc.
  - simpl. destruct (contentWindow iframe) as [w|] eqn:Hw; [|done].
    destruct (document w) as [doc|] eqn:Hdoc; [|done].
    intros [= <-]. f_equal. destruct (extensionIds spec); simpl; by list_assoc.
Qed.

(** Once the wait is over, an event leaves the identity and the
    properties of the iframe alone. *)
Lemma step_completed_iframe (st : Install) (ev : Event) :
  microtasks st = [] -> readyPromise st = true -> intervalActive st = false ->
  iframeId (theIframe (step st ev)) = iframeId (theIframe st)
  /\ expando (theIframe (step st ev)) = expando (theIframe st).
Proof.
  intros Hq Hr Hi. unfold step, dispatch, settleLoaded, settle.
  destruct_install st. subst.
  destruct ev as [w| |t|t e];
    try match goal with lt : Target |- _ => destruct t, lt end;
    try match goal with lp : Settled |- _ => destruct lp end;
    try match goal with ch : bool |- _ => destruct ch end;
    simpl; done.
Qed.

Lemma step_other_target_iframe (st : Install) (t : Target) (ev : Event) :
  microtasks st = [] ->
  Target_eqb t (loadTarget (config st)) = false ->
  ev = LoadEvent t \/ (exists e, ev = ErrorEvent t e) ->
  iframeId (theIframe (step st ev)) = iframeId (theIframe st)
  /\ expando (theIframe (step st ev)) = expando (theIframe st).
Proof.
  intros Hq Ht [->|[e ->]]; unfold step, dispatch, settle;
    destruct_install st; subst;
    match goal with lt : Target |- _ => destruct t, lt; try discriminate end;
    simpl; done.
Qed.

Lemma readyContinuation_outcome (st : Install) :
  installPromise (readyContinuation st)
  = match installExtensionsThrows (browser (config st)) with
    | Some thrown => InstallFailed thrown
    | None =>
        match contentWindow (theIframe st) with
        | Some _ => InstallFulfilled (newRef (browser (config st)))
        | None => InstallFailed TypeError
        end
    end.
Proof.
  unfold readyContinuation, startRender_.
  destruct_install st.
  match goal with b : Browser |- _ => destruct (installExtensionsThrows b) end;
    [reflexivity|].
  match goal with i : HTMLIFrameElement |- _ =>
    destruct i as [? [w|] ? ? ? ? ? ?] end; simpl; [|reflexivity].
  destruct (document w) as [doc|]; [destruct (body doc)|]; reflexivity.
Qed.

(** The callback of [readyPromise.then], on an installation without
    embed, gives the view of a settled installation. *)
Lemma readyContinuation_embedView (b : Browser) (spec : FriendlyIframeSpec)
    (iframe0 : HTMLIFrameElement) (st : Install) :
  browser (config st) = b -> theSpec (config st) = spec ->
  iframeId (theIframe st) = iframeId iframe0 ->
  expando (theIframe st) = expando iframe0 ->
  styleVisibility (theIframe st) = "hidden"%string ->
  embedView b spec iframe0 (readyContinuation st).
Proof.
  intros Hb Hs Hid Hex Hsv.
  destruct (readyContinuation_effects st)
    as (Hid' & _ & Hex' & embed & Hemb & Hself & Hifr & _ & Hspec & Hvis & Hh & Hcase).
  pose proof (readyContinuation_outcome st) as Hout.
  rewrite Hb, Hs, ?Hid, ?Hex in *.
  split; [congruence|].
  assert (expando (theIframe (readyContinuation st))
          = <[EMBED_PROP:=newRef b]> (expando iframe0)
          /\ exists embed0,
               theEmbed (readyContinuation st) = Some embed0
               /\ self embed0 = newRef b /\ iframe_ embed0 = iframeId iframe0
               /\ spec_ embed0 = spec /\ visible_ embed0 = false
               /\ handlers_ (visibilityObservable_ embed0) = []
               /\ match installExtensionsThrows b with
                  | Some e =>
                      installPromise (readyContinuation st) = InstallFailed e
                      /\ styleVisibility (theIframe (readyContinuation st))
                         = "hidden"%string
                      /\ signals_ embed0 = []
                  | None =>
                      styleVisibility (theIframe (readyContinuation st)) = ""%string
                      /\ signals_ embed0 = ["render-start"%string]
                  end) as Hview.
  { split; [done|]. exists embed. repeat (split; [done|]).
    destruct (installExtensionsThrows b); [|done].
    destruct Hcase as (? & ? & ? & _). repeat split; congruence. }
  rewrite Hout in Hview |- *.
  destruct (installExtensionsThrows b); [done|].
  by destruct (contentWindow (theIframe st)).
Qed.

Lemma finishWait_embedView (b : Browser) (spec : FriendlyIframeSpec)
    (iframe0 : HTMLIFrameElement) (st : Install) :
  browser (config st) = b -> theSpec (config st) = spec ->
  iframeId (theIframe st) = iframeId iframe0 ->
  expando (theIframe st) = expando iframe0 ->
  styleVisibility (theIframe st) = "hidden"%string ->
  embedView b spec iframe0 (finishWait st).
Proof.
  intros Hb Hs Hid Hex Hsv. unfold finishWait.
  by apply readyContinuation_embedView.
Qed.

(** The view depends only on the promise, the embed and three fields of
    the iframe. *)
Lemma embedView_same (b : Browser) (spec : FriendlyIframeSpec)
    (iframe0 : HTMLIFrameElement) (st st' : Install) :
  installPromise st' = installPromise st -> theEmbed st' = theEmbed st ->
  iframeId (theIframe st') = iframeId (theIframe st) ->
  expando (theIframe st') = expando (theIframe st) ->
  styleVisibility (theIframe st') = styleVisibility (theIframe st) ->
  embedView b spec iframe0 st -> embedView b spec iframe0 st'.
Proof.
  unfold embedView. intros -> -> -> -> ->. done.
Qed.

(** A turn of the event loop keeps the view. *)
Lemma embedView_step (b : Browser) (spec : FriendlyIframeSpec)
    (iframe0 : HTMLIFrameElement) (st : Install) (ev : Event) :
  betweenTurns st -> browser (config st) = b -> theSpec (config st) = spec ->
  embedView b spec iframe0 st -> embedView b spec iframe0 (step st ev).
Proof.
  intros [Hq [Hwait|Hdone]] Hb Hs Hview.
  - destruct Hwait as (Hr & Hip & Hlp & Hch & Hia & Hquiet).
    assert (iframeId (theIframe st) = iframeId iframe0
            /\ expando (theIframe st) = expando iframe0
            /\ styleVisibility (theIframe st) = "hidden"%string) as (Hid & Hex & Hsv).
    { destruct Hview as [Hid Hview]. rewrite Hip in Hview. tauto. }
    destruct ev as [w| |t|t e].
    + unfold step, dispatch. rewrite settle_idle by done.
      by apply (embedView_same _ _ _ st).
    + destruct (isIframeReady (theIframe st)) eqn:Hready.
      * rewrite step_timer_ready by done. by apply finishWait_embedView.
      * by rewrite step_timer_not_ready.
    + destruct (Target_eqb t (loadTarget (config st))) eqn:Ht.
      * assert (t = loadTarget (config st)) as ->
          by (by destruct t, (loadTarget (config st))).
        rewrite step_load_waiting by done.
        apply finishWait_embedView; by destruct (loadTarget (config st)).
      * destruct (step_other_target st t (LoadEvent t) Hq Ht)
          as (_ & _ & _ & _ & _ & Hip' & _ & Hemb' & Hsv'); [by left|].
        destruct (step_other_target_iframe st t (LoadEvent t) Hq Ht)
          as (Hid' & Hex'); [by left|].
        by apply (embedView_same _ _ _ st).
    + destruct (Target_eqb t (loadTarget (config st))) eqn:Ht.
      * assert (t = loadTarget (config st)) as ->
          by (by destruct t, (loadTarget (config st))).
        rewrite step_error_waiting by done.
        by apply finishWait_embedView.
      * destruct (step_other_target st t (ErrorEvent t e) Hq Ht)
          as (_ & _ & _ & _ & _ & Hip' & _ & Hemb' & Hsv'); [right; by exists e|].
        destruct (step_other_target_iframe st t (ErrorEvent t e) Hq Ht)
          as (Hid' & Hex'); [right; by exists e|].
        by apply (embedView_same _ _ _ st).
  - destruct Hdone as (Hr & Hia & _).
    destruct (step_completed st ev Hq Hr Hia)
      as (_ & _ & _ & _ & Hip' & Hemb' & Hsv' & _).
    destruct (step_completed_iframe st ev Hq Hr Hia) as (Hid' & Hex').
    by apply (embedView_same _ _ _ st).
Qed.

(** Every state of a run of a started installation is between turns, with
    the configuration of the call and the view of its embed. *)
Lemma run_embedView (b : Browser) (cache : option bool)
    (iframe : HTMLIFrameElement) (spec : FriendlyIframeSpec) (hook : option nat)
    (st0 : Install) (events : list Event) :
  installFriendlyIframeEmbed b cache iframe spec hook = inl st0 ->
  embedView b spec iframe (run st0 events).
Proof.
  intros Hinst.
  pose proof (install_betweenTurns _ _ _ _ _ _ Hinst) as (Hbt & Hb & Hs & _).
  assert (embedView b spec iframe (settle st0)) as Hview.
  { pose proof (install_start _ _ _ _ _ _ Hinst) as ->.
    destruct (isIframeReady iframe) eqn:Hready.
    - rewrite settle_ready by reflexivity.
      apply readyContinuation_embedView;
        by destruct (isSrcdocSupported b cache).1.
    - rewrite settle_idle by reflexivity.
      split; by destruct (isSrcdocSupported b cache).1. }
  unfold run. revert Hbt Hb Hs Hview. generalize (settle st0). clear Hinst st0.
  induction events as [|ev events IH]; intros st Hbt Hb Hs Hview; simpl; [done|].
  apply IH.
  - by apply step_betweenTurns.
  - by rewrite step_config.
  - by rewrite step_config.
  - by apply embedView_step.
Qed.

(* --------------------------------------------------------------------- *)
(** *** Errors and strategy of the synchronous part *)

(** X6.  Under the write-stream strategy ([srcdoc] not supported), an
    iframe that has no child window once appended, or whose child window
    has no document, makes the installer throw before it returns: no
    promise is returned, so the failure is not a rejection. *)
Theorem installFriendlyIframeEmbed_throws (b : Browser) (cache : option bool)
    (iframe : HTMLIFrameElement) (spec : FriendlyIframeSpec) (hook : option nat) :
  (isSrcdocSupported b cache).1 = false ->
  contentWindow iframe ≫= document = None ->
  exists e, installFriendlyIframeEmbed b cache iframe spec hook = inr e.
Proof.
  unfold installFriendlyIframeEmbed.
  destruct (isSrcdocSupported b cache) as [[|] cache']; simpl; [done|].
  intros _. destruct (contentWindow iframe) as [w|]; simpl.
  - destruct (document w) as [doc|]; simpl; [done|]. by exists TypeError.
  - by exists TypeError.
Qed.

Lemma installFriendlyIframeEmbed_throws_witness :
  exists e,
    installFriendlyIframeEmbed
      {| srcdocInPrototype := false; installExtensionsThrows := None; newRef := 100 |}
      None (newIframe 1 None) exampleSpec None = inr e.
Proof.
  apply (installFriendlyIframeEmbed_throws
           {| srcdocInPrototype := false; installExtensionsThrows := None;
              newRef := 100 |}
           None (newIframe 1 None) exampleSpec None); reflexivity.
Defined.

(** X7.  The injection strategy is decided once: a first call detects it
    from the browser (or takes the value set for testing) and leaves it in
    the module-level cache; every later call takes it from the cache,
    whatever the browser then shows. *)
Theorem injection_strategy_is_cached (b1 b2 : Browser) (cache : option bool)
    (iframe1 iframe2 : HTMLIFrameElement) (spec1 spec2 : FriendlyIframeSpec)
    (hook1 hook2 : option nat) (st1 st2 : Install) :
  installFriendlyIframeEmbed b1 cache iframe1 spec1 hook1 = inl st1 ->
  installFriendlyIframeEmbed b2 (srcdocSupported (config st1)) iframe2 spec2 hook2
  = inl st2 ->
  loadTarget (config st2) = loadTarget (config st1)
  /\ srcdocSupported (config st2) = srcdocSupported (config st1)
  /\ isSrcdocSupported b2 (srcdocSupported (config st1))
     = ((isSrcdocSupported b1 cache).1, srcdocSupported (config st1))
  /\ (cache = None ->
      loadTarget (config st1)
      = if srcdocInPrototype b1 then TargetIframe else TargetChildWindow)
  /\ (forall v, cache = setSrcdocSupportedForTesting (Some v) ->
        loadTarget (config st1) = if v then TargetIframe else TargetChildWindow).
Proof.
  intros H1 H2.
  pose proof (install_start _ _ _ _ _ _ H1) as E1. rewrite E1 in H2 |- *. simpl in *.
  pose proof (install_start _ _ _ _ _ _ H2) as E2. rewrite E2. simpl.
  repeat split.
  - intros ->. reflexivity.
  - intros v ->. reflexivity.
Qed.

Lemma injection_strategy_is_cached_witness :
  exists st1 st2,
    installFriendlyIframeEmbed exampleBrowser None exampleIframe exampleSpec None = inl st1
    /\ installFriendlyIframeEmbed
         {| srcdocInPrototype := false; installExtensionsThrows := None; newRef := 101 |}
         (srcdocSupported (config st1)) (newIframe 2 None) exampleSpec None = inl st2
    /\ loadTarget (config st2) = TargetIframe.
Proof.
  do 2 eexists. split; [vm_compute; reflexivity|]. split; [vm_compute; reflexivity|].
  match goal with |- loadTarget (config ?s2) = _ =>
    match type of s2 with _ =>
      destruct (injection_strategy_is_cached
                  exampleBrowser
                  {| srcdocInPrototype := false; installExtensionsThrows := None;
                     newRef := 101 |}
                  None exampleIframe (newIframe 2 None) exampleSpec exampleSpec None None
                  _ s2 eq_refl eq_refl) as (Hsame & _)
    end
  end.
  rewrite Hsame. reflexivity.
Defined.

(* --------------------------------------------------------------------- *)
(** *** The readiness wait *)

Lemma run_app (st : Install) (events more : list Event) :
  run st (events ++ more) = fold_left step more (run st events).
Proof. unfold run. apply fold_left_app. Qed.

(** X8.  In every state a run of the installer reaches between two turns
    of the event loop, no promise job is left queued, the polling interval
    is active exactly while the readiness promise is pending, and the
    returned promise is pending exactly as long; while it is pending the
    loaded token has not settled. *)
Theorem interval_active_while_waiting (b : Browser) (cache : option bool)
    (iframe : HTMLIFrameElement) (spec : FriendlyIframeSpec) (hook : option nat)
    (st0 : Install) (events : list Event) :
  installFriendlyIframeEmbed b cache iframe spec hook = inl st0 ->
  microtasks (run st0 events) = []
  /\ intervalActive (run st0 events) = negb (readyPromise (run st0 events))
  /\ (installPromise (run st0 events) = InstallPending
      <-> readyPromise (run st0 events) = false)
  /\ (readyPromise (run st0 events) = false ->
      loadedPromise (run st0 events) = Pending).
Proof.
  intros Hinst.
  destruct (run_betweenTurns _ _ _ _ _ _ events Hinst) as ([Hq Hst] & _).
  split; [done|].
  destruct Hst as [(Hr & Hip & Hlp & _ & Hia & _)
                  | (Hr & Hia & _ & _ & _ & _ & _ & _ & _ & _ & _ & _ & _ & Hne & _)].
  - rewrite Hr, Hia, Hip. repeat split; done.
  - rewrite Hr, Hia. repeat split; done.
Qed.

Lemma interval_active_while_waiting_witness :
  exists st0,
    installFriendlyIframeEmbed exampleBrowser None (newIframe 1 (Some (loadedWindow 7 [])))
                               exampleSpec None = inl st0
    /\ intervalActive (run st0 [TimerFired; TimerFired]) = true
    /\ intervalActive (run st0 [TimerFired; LoadEvent TargetIframe; TimerFired]) = false.
Proof.
  eexists. split; [vm_compute; reflexivity|].
  match goal with |- context [run ?s _] =>
    destruct (interval_active_while_waiting
                exampleBrowser None (newIframe 1 (Some (loadedWindow 7 []))) exampleSpec
                None s [TimerFired; TimerFired] eq_refl) as (_ & Ha & _);
    destruct (interval_active_while_waiting
                exampleBrowser None (newIframe 1 (Some (loadedWindow 7 []))) exampleSpec
                None s [TimerFired; LoadEvent TargetIframe; TimerFired] eq_refl)
      as (_ & Hb & _)
  end.
  split; [rewrite Ha | rewrite Hb]; vm_compute; reflexivity.
Defined.

(** Without the catch/then chain and without interval, an event makes no
    call and settles nothing. *)
Lemma step_unchained (st : Install) (ev : Event) :
  microtasks st = [] -> chained (config st) = false -> intervalActive st = false ->
  microtasks (step st ev) = [] /\ intervalActive (step st ev) = false
  /\ trace (step st ev) = trace st /\ installPromise (step st ev) = installPromise st
  /\ theEmbed (step st ev) = theEmbed st /\ readyPromise (step st ev) = readyPromise st.
Proof.
  intros Hq Hc Hi. unfold step, dispatch, settleLoaded, settle.
  destruct_install st. subst.
  destruct ev as [w| |t|t e];
    try match goal with lt : Target |- _ => destruct t, lt end;
    try match goal with lp : Settled |- _ => destruct lp end;
    simpl; done.
Qed.

(** The callback of [readyPromise.then] makes no call of the polling and
    reports no load failure. *)
Lemma readyContinuation_waitCalls (st : Install) :
  Forall (fun c => waitCall c = false) (trace st) ->
  Forall (fun c => waitCall c = false) (trace (readyContinuation st)).
Proof.
  intros Htr.
  destruct (readyContinuation_effects st) as (_ & _ & _ & embed & _ & _ & _ & _ & _ & _ & _ & Hcase).
  destruct st as [cfg ifr lp ia rp mt emb ip tr].
  destruct ifr as [iid cw sv rpol irs sd sr ex].
  unfold readyContinuation, startRender_ in *. simpl in *.
  destruct (installExtensionsThrows (browser cfg)) as [e|]; simpl.
  - repeat (apply Forall_app; split); try done; by repeat constructor.
  - destruct cw as [w|]; [destruct (document w) as [doc|]; [destruct (body doc)|]|];
      simpl; repeat (apply Forall_app; split); try done; by repeat constructor.
Qed.

Lemma readyContinuation_block_waitCalls (st : Install) (block : list Call) :
  trace (readyContinuation st) = trace st ++ block ->
  Forall (fun c => waitCall c = false) block.
Proof.
  destruct st as [cfg ifr lp ia rp mt emb ip tr].
  destruct ifr as [iid cw sv rpol irs sd sr ex].
  unfold readyContinuation, startRender_. simpl.
  destruct (installExtensionsThrows (browser cfg)) as [e|]; simpl.
  - rewrite <- !app_assoc. intros <-%app_inv_head. by repeat constructor.
  - destruct cw as [w|]; [destruct (document w) as [doc|]; [destruct (body doc)|]|];
      simpl; rewrite <- !app_assoc; intros <-%app_inv_head; by repeat constructor.
Qed.

(** X9.  When the iframe is ready at the first check, everything happens in
    the microtask checkpoint right after the call: the returned promise is
    settled before any event, no interval is ever set or cleared, and no
    event, a load failure included, adds a call, changes the returned
    promise or the embed; a load failure is not passed to [rethrowAsync]. *)
Theorem ready_at_first_check (b : Browser) (cache : option bool)
    (iframe : HTMLIFrameElement) (spec : FriendlyIframeSpec) (hook : option nat)
    (st0 : Install) (events : list Event) :
  installFriendlyIframeEmbed b cache iframe spec hook = inl st0 ->
  isIframeReady iframe = true ->
  trace (run st0 events) = trace (run st0 [])
  /\ installPromise (run st0 events) = installPromise (run st0 [])
  /\ theEmbed (run st0 events) = theEmbed (run st0 [])
  /\ installPromise (run st0 []) <> InstallPending
  /\ Forall (fun c => waitCall c = false) (trace (run st0 events)).
Proof.
  intros Hinst Hready.
  assert (chained (config (run st0 [])) = false) as Hch.
  { change (run st0 []) with (settle st0). unfold settle. rewrite drain_config.
    rewrite (install_start _ _ _ _ _ _ Hinst). simpl. by rewrite Hready. }
  assert (Forall (fun c => waitCall c = false) (trace (run st0 []))
          /\ readyPromise (run st0 []) = true) as [Hcalls Hrp].
  { change (run st0 []) with (settle st0).
    rewrite (install_start _ _ _ _ _ _ Hinst), Hready.
    rewrite settle_ready by reflexivity. split.
    - apply readyContinuation_waitCalls. simpl.
      constructor; [done|]. constructor; [done|].
      apply Forall_app. split.
      + apply Forall_forall. by intros c (x & -> & _)%list_elem_of_fmap.
      + destruct (isSrcdocSupported b cache).1; by repeat constructor.
    - match goal with |- readyPromise (readyContinuation ?s) = _ =>
        by destruct (readyContinuation_spec s) as (_ & _ & _ & -> & _) end. }
  destruct (run_betweenTurns _ _ _ _ _ _ [] Hinst) as ([Hq Hst] & _).
  destruct Hst as [(Hr & _) | (_ & Hia & _ & _ & _ & _ & _ & _ & _ & _ & _ & _ & _ & Hne & _)];
    [congruence|].
  change events with ([] ++ events). rewrite run_app.
  revert Hq Hch Hia Hcalls Hne. generalize (run st0 []). clear.
  induction events as [|ev events IH]; intros st Hq Hch Hia Hcalls Hne; simpl; [done|].
  destruct (step_unchained st ev Hq Hch Hia) as (Hq' & Hia' & Htr' & Hip' & Hemb' & _).
  destruct (IH (step st ev)) as (-> & -> & -> & _ & _);
    rewrite ?step_config, ?Htr', ?Hip'; done.
Qed.

Lemma ready_at_first_check_witness :
  exists st0,
    installFriendlyIframeEmbed exampleBrowser None exampleIframe exampleSpec None = inl st0
    /\ trace (run st0 [ErrorEvent TargetIframe (Thrown 3); TimerFired])
       = trace (run st0 [])
    /\ installPromise (run st0 []) <> InstallPending.
Proof.
  eexists. split; [vm_compute; reflexivity|].
  match goal with |- context [run ?s _] =>
    destruct (ready_at_first_check exampleBrowser None exampleIframe exampleSpec None s
                [ErrorEvent TargetIframe (Thrown 3); TimerFired] eq_refl eq_refl)
      as (Htr & _ & _ & Hne & _)
  end.
  split; [exact Htr | exact Hne].
Defined.

(** X10.  While the readiness wait is on, a tick of the interval on an
    iframe that is not ready changes nothing, however often it comes:
    there is no timeout.  A tick on a ready iframe fulfils the readiness
    promise and clears the interval, reports no error, leaves the loaded
    token pending and settles the returned promise: fulfilled with the
    embed unless installing the extensions throws or the child window is
    gone. *)
Theorem polling_ends_wait (b : Browser) (cache : option bool)
    (iframe : HTMLIFrameElement) (spec : FriendlyIframeSpec) (hook : option nat)
    (st0 : Install) (events : list Event) :
  installFriendlyIframeEmbed b cache iframe spec hook = inl st0 ->
  readyPromise (run st0 events) = false ->
  (isIframeReady (theIframe (run st0 events)) = false ->
     forall n, fold_left step (repeat TimerFired n) (run st0 events) = run st0 events)
  /\ (isIframeReady (theIframe (run st0 events)) = true ->
      (exists rest,
         trace (step (run st0 events) TimerFired)
         = trace (run st0 events) ++ ReadyResolved :: ClearInterval :: rest
         /\ Forall (fun c => waitCall c = false) rest)
      /\ intervalActive (step (run st0 events) TimerFired) = false
      /\ readyPromise (step (run st0 events) TimerFired) = true
      /\ loadedPromise (step (run st0 events) TimerFired) = Pending
      /\ installPromise (step (run st0 events) TimerFired)
         = match installExtensionsThrows b with
           | Some thrown => InstallFailed thrown
           | None =>
               match contentWindow (theIframe (run st0 events)) with
               | Some _ => InstallFulfilled (newRef b)
               | None => InstallFailed TypeError
               end
           end).
Proof.
  intros Hinst Hwait.
  destruct (run_betweenTurns _ _ _ _ _ _ events Hinst) as ([Hq Hst] & Hb & _).
  destruct Hst as [(Hr & Hip & Hlp & Hch & Hia & Hquiet) | (Hr & _)]; [|congruence].
  split.
  - intros Hnot n. induction n as [|n IH]; [done|]. simpl.
    by rewrite step_timer_not_ready.
  - intros Hready. rewrite step_timer_ready by done.
    rewrite finishWait_outcome, Hb.
    destruct (finishWait_completed _ Hquiet) as (_ & Hdone & _ & Hlp' & _).
    destruct Hdone as (Hr' & Hia' & _).
    split; [|by rewrite Hlp'].
    unfold finishWait.
    set (st1 := set_microtasks [] _).
    assert (trace st1 = trace (run st0 events) ++ [ReadyResolved; ClearInterval]) as Ht1
      by (subst st1; simpl; by list_assoc).
    destruct (readyContinuation_spec st1) as (_ & _ & _ & _ & _ & _ & block & embed & Htr & _).
    exists block. rewrite Htr, Ht1. split; [by list_assoc|].
    apply (readyContinuation_block_waitCalls st1 block Htr).
Qed.

Lemma polling_ends_wait_witness :
  exists st0,
    installFriendlyIframeEmbed exampleBrowser None (newIframe 1 (Some (loadedWindow 7 [])))
                               exampleSpec None = inl st0
    /\ fold_left step (repeat TimerFired 3) (run st0 []) = run st0 []
    /\ installPromise
         (step (run st0 [TimerFired; DomChanged (Some (loadedWindow 7 [mkNode "P" []]))])
               TimerFired)
       = InstallFulfilled 100.
Proof.
  eexists. split; [vm_compute; reflexivity|].
  match goal with |- context [run ?s _] =>
    destruct (polling_ends_wait
                exampleBrowser None (newIframe 1 (Some (loadedWindow 7 []))) exampleSpec
                None s [] eq_refl eq_refl) as (Hidle & _);
    destruct (polling_ends_wait
                exampleBrowser None (newIframe 1 (Some (loadedWindow 7 []))) exampleSpec
                None s [TimerFired; DomChanged (Some (loadedWindow 7 [mkNode "P" []]))]
                eq_refl eq_refl) as (_ & Hend)
  end.
  split.
  - apply Hidle. reflexivity.
  - destruct Hend as (_ & _ & _ & _ & Hout); [reflexivity|].
    rewrite Hout. reflexivity.
Defined.

(* --------------------------------------------------------------------- *)
(** *** The embed of an installation *)

(** X11.  Once the returned promise is settled, fulfilled or rejected, the
    embed exists and is the value of the iframe's embed property, so that
    the lookup by iframe handle yields it; it refers to the iframe it was
    installed on, holds the spec of the call, is not visible and has no
    visibility subscriber.  While the promise is pending there is no
    embed and the lookup yields what it yielded on the iframe as given. *)
Theorem settled_install_registers_embed (b : Browser) (cache : option bool)
    (iframe : HTMLIFrameElement) (spec : FriendlyIframeSpec) (hook : option nat)
    (st0 : Install) (events : list Event) :
  installFriendlyIframeEmbed b cache iframe spec hook = inl st0 ->
  (installPromise (run st0 events) <> InstallPending ->
     getFriendlyIframeEmbedOptional (theIframe (run st0 events)) = Some (newRef b)
     /\ exists embed,
          theEmbed (run st0 events) = Some embed
          /\ self embed = newRef b
          /\ iframe_ embed = iframeId iframe
          /\ iframeId (theIframe (run st0 events)) = iframeId iframe
          /\ spec_ embed = spec
          /\ isVisible embed = false
          /\ handlers_ (visibilityObservable_ embed) = [])
  /\ (installPromise (run st0 events) = InstallPending ->
      theEmbed (run st0 events) = None
      /\ getFriendlyIframeEmbedOptional (theIframe (run st0 events))
         = getFriendlyIframeEmbedOptional iframe).
Proof.
  intros Hinst.
  destruct (run_embedView _ _ _ _ _ _ events Hinst) as [Hid Hview].
  unfold getFriendlyIframeEmbedOptional, isVisible. split.
  - intros Hne.
    destruct (installPromise (run st0 events)); [done| |];
      destruct Hview as (-> & embed & ? & ? & ? & ? & ? & ? & _);
      (split; [apply lookup_insert_eq|]); exists embed; done.
  - intros Hp. rewrite Hp in Hview. destruct Hview as (? & -> & _). done.
Qed.

Lemma settled_install_registers_embed_witness :
  exists st0,
    installFriendlyIframeEmbed exampleBrowser None exampleIframe exampleSpec None = inl st0
    /\ getFriendlyIframeEmbedOptional (theIframe (run st0 [LoadEvent TargetIframe]))
       = Some 100%nat.
Proof.
  eexists. split; [vm_compute; reflexivity|].
  match goal with |- context [run ?s _] =>
    destruct (settled_install_registers_embed exampleBrowser None exampleIframe
                exampleSpec None s [LoadEvent TargetIframe] eq_refl) as (Hset & _)
  end.
  destruct Hset as (Hlookup & _); [vm_compute; discriminate|].
  exact Hlookup.
Defined.

(** X12.  The iframe is either hidden or shown, and it is shown exactly
    when the returned promise is settled and installing the extensions
    did not throw; the embed then carries the render-start signal. *)
Theorem iframe_shown_after_render_start (b : Browser) (cache : option bool)
    (iframe : HTMLIFrameElement) (spec : FriendlyIframeSpec) (hook : option nat)
    (st0 : Install) (events : list Event) :
  installFriendlyIframeEmbed b cache iframe spec hook = inl st0 ->
  (styleVisibility (theIframe (run st0 events)) = "hidden"%string
   \/ styleVisibility (theIframe (run st0 events)) = ""%string)
  /\ (styleVisibility (theIframe (run st0 events)) = ""%string <->
      installPromise (run st0 events) <> InstallPending
      /\ installExtensionsThrows b = None)
  /\ (styleVisibility (theIframe (run st0 events)) = ""%string ->
      exists embed,
        theEmbed (run st0 events) = Some embed
        /\ "render-start"%string ∈ signals_ embed).
Proof.
  intros Hinst.
  destruct (run_embedView _ _ _ _ _ _ events Hinst) as [_ Hview].
  destruct (installPromise (run st0 events)) eqn:Hip.
  - destruct Hview as (_ & _ & ->). split; [by left|].
    split; [split; [done | by intros [? _]] | done].
  - destruct Hview as (_ & embed & Hemb & _ & _ & _ & _ & _ & Hcase).
    destruct (installExtensionsThrows b) as [e|].
    + destruct Hcase as (_ & -> & _). split; [by left|].
      split; [split; [done | by intros [_ ?]] | done].
    + destruct Hcase as (-> & Hsig). split; [by right|]. split; [done|].
      intros _. exists embed. split; [done|]. rewrite Hsig. by apply list_elem_of_singleton.
  - destruct Hview as (_ & embed & Hemb & _ & _ & _ & _ & _ & Hcase).
    destruct (installExtensionsThrows b) as [e|].
    + destruct Hcase as (_ & -> & _). split; [by left|].
      split; [split; [done | by intros [_ ?]] | done].
    + destruct Hcase as (-> & Hsig). split; [by right|]. split; [done|].
      intros _. exists embed. split; [done|]. rewrite Hsig. by apply list_elem_of_singleton.
Qed.

Lemma iframe_shown_after_render_start_witness :
  exists st0,
    installFriendlyIframeEmbed exampleBrowser None (newIframe 1 (Some (loadedWindow 7 [])))
                               exampleSpec None = inl st0
    /\ styleVisibility (theIframe (run st0 [TimerFired])) = "hidden"%string
    /\ styleVisibility (theIframe (run st0 [TimerFired; LoadEvent TargetIframe]))
       = ""%string.
Proof.
  eexists. split; [vm_compute; reflexivity|].
  match goal with |- context [run ?s _] =>
    destruct (iframe_shown_after_render_start
                exampleBrowser None (newIframe 1 (Some (loadedWindow 7 []))) exampleSpec
                None s [TimerFired; LoadEvent TargetIframe] eq_refl) as (_ & Hiff & _)
  end.
  split; [vm_compute; reflexivity|].
  apply Hiff. split; [vm_compute; discriminate | reflexivity].
Defined.

(** X13.  When installing the extensions throws, the returned promise is
    never fulfilled: it is pending or rejected with the very error thrown;
    the iframe stays hidden and the render-start signal is never given.
    The embed is registered on the iframe all the same once the promise
    is rejected. *)
Theorem extension_failure_rejects_install (b : Browser) (cache : option bool)
    (iframe : HTMLIFrameElement) (spec : FriendlyIframeSpec) (hook : option nat)
    (st0 : Install) (events : list Event) (thrown : Error) :
  installFriendlyIframeEmbed b cache iframe spec hook = inl st0 ->
  installExtensionsThrows b = Some thrown ->
  (installPromise (run st0 events) = InstallPending
   \/ installPromise (run st0 events) = InstallFailed thrown)
  /\ styleVisibility (theIframe (run st0 events)) = "hidden"%string
  /\ (forall embed, theEmbed (run st0 events) = Some embed -> signals_ embed = [])
  /\ (installPromise (run st0 events) = InstallFailed thrown ->
      getFriendlyIframeEmbedOptional (theIframe (run st0 events)) = Some (newRef b)).
Proof.
  intros Hinst Hthrows.
  destruct (run_embedView _ _ _ _ _ _ events Hinst) as [_ Hview].
  rewrite Hthrows in Hview. unfold getFriendlyIframeEmbedOptional.
  destruct (installPromise (run st0 events)) eqn:Hip.
  - destruct Hview as (-> & _ & ->). split; [by left|]. done.
  - by destruct Hview as (_ & embed & _ & _ & _ & _ & _ & _ & ? & _).
  - destruct Hview as (-> & embed & -> & _ & _ & _ & _ & _ & [= ->] & -> & Hsig).
    split; [by right|]. split; [done|]. split.
    + by intros ? [= <-].
    + intros _. apply lookup_insert_eq.
Qed.

Lemma extension_failure_rejects_install_witness :
  exists st0,
    installFriendlyIframeEmbed
      {| srcdocInPrototype := true; installExtensionsThrows := Some (Thrown 9);
         newRef := 100 |}
      None exampleIframe exampleSpec None = inl st0
    /\ styleVisibility (theIframe (run st0 [LoadEvent TargetIframe])) = "hidden"%string
    /\ installPromise (run st0 [LoadEvent TargetIframe]) = InstallFailed (Thrown 9).
Proof.
  eexists. split; [vm_compute; reflexivity|].
  match goal with |- context [run ?s _] =>
    destruct (extension_failure_rejects_install
                {| srcdocInPrototype := true; installExtensionsThrows := Some (Thrown 9);
                   newRef := 100 |}
                None exampleIframe exampleSpec None s [LoadEvent TargetIframe] (Thrown 9)
                eq_refl eq_refl) as (_ & Hhidden & _)
  end.
  split; [exact Hhidden | vm_compute; reflexivity].
Defined.

Lemma run_config (st : Install) (events : list Event) :
  config (run st events) = config st.
Proof.
  unfold run. rewrite <- (drain_config (queueWeight (microtasks st)) st).
  fold (settle st). generalize (settle st).
  induction events as [|ev events IH]; intros st'; simpl; [done|].
  by rewrite IH, step_config.
Qed.

(** Once the wait is over, no run of events changes the returned promise
    or the embed, and none constructs an embed or installs extensions
    again. *)
Lemma completed_is_final (st : Install) (more : list Event) :
  microtasks st = [] -> readyPromise st = true -> intervalActive st = false ->
  installPromise (fold_left step more st) = installPromise st
  /\ theEmbed (fold_left step more st) = theEmbed st
  /\ exists extra, quiet extra /\ trace (fold_left step more st) = trace st ++ extra.
Proof.
  revert st. induction more as [|ev more IH]; intros st Hq Hr Hia; simpl.
  - repeat split. exists []. split; [constructor | by rewrite app_nil_r].
  - destruct (step_completed st ev Hq Hr Hia)
      as (Hq' & _ & Hr' & Hia' & Hip' & Hemb' & _ & extra & Hqe & Htr').
    destruct (IH (step st ev) Hq' Hr' Hia') as (-> & -> & extra' & Hqe' & ->).
    repeat split; try done.
    exists (extra ++ extra'). split; [by apply quiet_app|].
    rewrite Htr'. by list_assoc.
Qed.

(** X14.  The returned promise settles once: after it is fulfilled or
    rejected, whatever events follow leave it and the embed as they are,
    and add no call that constructs an embed, installs extensions, gives
    a signal or settles a promise. *)
Theorem install_settles_once (b : Browser) (cache : option bool)
    (iframe : HTMLIFrameElement) (spec : FriendlyIframeSpec) (hook : option nat)
    (st0 : Install) (events more : list Event) :
  installFriendlyIframeEmbed b cache iframe spec hook = inl st0 ->
  installPromise (run st0 events) <> InstallPending ->
  installPromise (run st0 (events ++ more)) = installPromise (run st0 events)
  /\ theEmbed (run st0 (events ++ more)) = theEmbed (run st0 events)
  /\ exists extra,
       trace (run st0 (events ++ more)) = trace (run st0 events) ++ extra
       /\ quiet extra.
Proof.
  intros Hinst Hsettled. rewrite run_app.
  destruct (run_betweenTurns _ _ _ _ _ _ events Hinst) as ([Hq Hst] & _).
  destruct Hst as [(_ & Hip & _) | (Hr & Hia & _)]; [done|].
  destruct (completed_is_final _ more Hq Hr Hia) as (? & ? & extra & ? & ?).
  repeat split; try done. by exists extra.
Qed.

Lemma install_settles_once_witness :
  exists st0,
    installFriendlyIframeEmbed exampleBrowser None exampleIframe exampleSpec None = inl st0
    /\ installPromise
         (run st0 ([LoadEvent TargetIframe]
                   ++ [ErrorEvent TargetIframe (Thrown 1); TimerFired;
                       DomChanged None; LoadEvent TargetIframe]))
       = InstallFulfilled 100.
Proof.
  eexists. split; [vm_compute; reflexivity|].
  match goal with |- context [run ?s _] =>
    destruct (install_settles_once exampleBrowser None exampleIframe exampleSpec None s
                [LoadEvent TargetIframe]
                [ErrorEvent TargetIframe (Thrown 1); TimerFired; DomChanged None;
                 LoadEvent TargetIframe] eq_refl) as (Hsame & _)
  end.
  - vm_compute. discriminate.
  - rewrite Hsame. vm_compute. reflexivity.
Defined.

(** X15.  Load and error events of the object the loaded token does not
    listen to settle nothing.  With the [srcdoc] strategy (token on the
    iframe) an event of the child window changes nothing at all; with the
    write-stream strategy (token on the child window) the iframe's load
    event only marks the iframe's ready state complete, and its error
    event changes nothing. *)
Theorem other_target_events_settle_nothing (b : Browser) (cache : option bool)
    (iframe : HTMLIFrameElement) (spec : FriendlyIframeSpec) (hook : option nat)
    (st0 : Install) (events : list Event) (e : Error) :
  installFriendlyIframeEmbed b cache iframe spec hook = inl st0 ->
  (loadTarget (config (run st0 events)) = TargetIframe <->
     (isSrcdocSupported b cache).1 = true)
  /\ (loadTarget (config (run st0 events)) = TargetIframe ->
      step (run st0 events) (LoadEvent TargetChildWindow) = run st0 events
      /\ step (run st0 events) (ErrorEvent TargetChildWindow e) = run st0 events)
  /\ (loadTarget (config (run st0 events)) = TargetChildWindow ->
      step (run st0 events) (LoadEvent TargetIframe)
      = set_theIframe
          (set_iframeReadyState (Some "complete"%string) (theIframe (run st0 events)))
          (run st0 events)
      /\ step (run st0 events) (ErrorEvent TargetIframe e) = run st0 events).
Proof.
  intros Hinst.
  destruct (run_betweenTurns _ _ _ _ _ _ events Hinst) as ([Hq _] & _).
  assert (loadTarget (config (run st0 events))
          = if (isSrcdocSupported b cache).1 then TargetIframe else TargetChildWindow)
    as Htarget.
  { rewrite run_config. by rewrite (install_start _ _ _ _ _ _ Hinst). }
  split; [rewrite Htarget; by destruct (isSrcdocSupported b cache).1|].
  unfold step, dispatch. split; intros Ht.
  - rewrite Ht. cbn [Target_eqb]. by rewrite !settle_idle.
  - cbn [config set_theIframe]. rewrite Ht. cbn [Target_eqb].
    by rewrite !settle_idle.
Qed.

Lemma other_target_events_settle_nothing_witness :
  exists st0,
    installFriendlyIframeEmbed
      {| srcdocInPrototype := false; installExtensionsThrows := None; newRef := 100 |}
      None (newIframe 1 (Some (loadedWindow 7 []))) exampleSpec None = inl st0
    /\ installPromise (step (run st0 [TimerFired]) (LoadEvent TargetIframe))
       = InstallPending
    /\ iframeReadyState (theIframe (step (run st0 [TimerFired]) (LoadEvent TargetIframe)))
       = Some "complete"%string.
Proof.
  eexists. split; [vm_compute; reflexivity|].
  match goal with |- context [run ?s _] =>
    destruct (other_target_events_settle_nothing
                {| srcdocInPrototype := false; installExtensionsThrows := None;
                   newRef := 100 |}
                None (newIframe 1 (Some (loadedWindow 7 []))) exampleSpec None s
                [TimerFired] TypeError eq_refl) as (_ & _ & Hwrite)
  end.
  destruct Hwrite as [Hload _]; [vm_compute; reflexivity|].
  rewrite Hload. split; vm_compute; reflexivity.
Defined.

(* --------------------------------------------------------------------- *)
(** *** Runs of visibility changes *)

Lemma last_default_cons (current v : bool) (rest : list bool) :
  default current (last (v :: rest)) = default v (last rest).
Proof.
  destruct rest as [|a rest]; [done|].
  change (last (v :: a :: rest)) with (last (a :: rest)).
  assert (exists x, last (a :: rest) = Some x) as [x ->]; [|done].
  revert a. induction rest as [|a' rest IH]; intros a; [by exists a|].
  change (last (a :: a' :: rest)) with (last (a' :: rest)). apply IH.
Qed.

(** X16.  Setting the visibility to a list of values, one after the other,
    calls the subscribed handlers once, in subscription order, for every
    value that differs from the flag as it stands then, and for no other
    value; repeating a value calls nobody.  The flag ends as the last
    value set, and the subscribers are as before. *)
Theorem setVisibleAll_notifies_changes (this : FriendlyIframeEmbed)
    (values : list bool) :
  (setVisibleAll this values).2
  = flat_map (fun v => map (fun h => Notify h v)
                           (handlers_ (visibilityObservable_ this)))
             (changes (visible_ this) values)
  /\ isVisible (setVisibleAll this values).1 = default (visible_ this) (last values)
  /\ visibilityObservable_ (setVisibleAll this values).1 = visibilityObservable_ this.
Proof.
  unfold isVisible. revert this.
  induction values as [|v values IH]; intros this; [done|].
  cbn [setVisibleAll changes]. rewrite last_default_cons.
  destruct (Bool.eqb (visible_ this) v) eqn:E.
  - apply Bool.eqb_prop in E. subst v. rewrite setVisible__same.
    destruct (setVisibleAll this values) as [this2 calls2] eqn:E2.
    specialize (IH this). rewrite E2 in IH. done.
  - apply Bool.eqb_false_iff in E.
    rewrite setVisible__changed by congruence.
    match goal with |- context [setVisibleAll ?t values] =>
      specialize (IH t); destruct (setVisibleAll t values) as [this2 calls2] end.
    cbn [fst snd flat_map visible_ visibilityObservable_] in *.
    destruct IH as (-> & -> & ->). done.
Qed.

(** X17.  While the readiness wait is on, the load event of the loaded
    token's target ends the wait even if the iframe never became ready:
    the token is fulfilled, the readiness promise is fulfilled and the
    interval cleared, nothing is passed to [rethrowAsync], and the returned
    promise is settled, fulfilled with the embed unless installing the
    extensions throws or the child window is gone. *)
Theorem load_ends_wait (b : Browser) (cache : option bool)
    (iframe : HTMLIFrameElement) (spec : FriendlyIframeSpec) (hook : option nat)
    (st0 : Install) (events : list Event) :
  installFriendlyIframeEmbed b cache iframe spec hook = inl st0 ->
  readyPromise (run st0 events) = false ->
  (exists rest,
     trace (step (run st0 events) (LoadEvent (loadTarget (config (run st0 events)))))
     = trace (run st0 events) ++ ReadyResolved :: ClearInterval :: rest
     /\ Forall (fun c => waitCall c = false) rest)
  /\ loadedPromise
       (step (run st0 events) (LoadEvent (loadTarget (config (run st0 events)))))
     = Fulfilled
  /\ intervalActive
       (step (run st0 events) (LoadEvent (loadTarget (config (run st0 events)))))
     = false
  /\ readyPromise
       (step (run st0 events) (LoadEvent (loadTarget (config (run st0 events)))))
     = true
  /\ installPromise
       (step (run st0 events) (LoadEvent (loadTarget (config (run st0 events)))))
     = match installExtensionsThrows b with
       | Some thrown => InstallFailed thrown
       | None =>
           match contentWindow (theIframe (run st0 events)) with
           | Some _ => InstallFulfilled (newRef b)
           | None => InstallFailed TypeError
           end
       end.
Proof.
  intros Hinst Hwait.
  destruct (run_betweenTurns _ _ _ _ _ _ events Hinst) as ([Hq Hst] & Hb & _).
  destruct Hst as [(Hr & Hip & Hlp & Hch & Hia & Hquiet) | (Hr & _)]; [|congruence].
  rewrite step_load_waiting by done.
  set (st1 := set_loadedPromise Fulfilled _).
  assert (trace st1 = trace (run st0 events)
          /\ config st1 = config (run st0 events)
          /\ contentWindow (theIframe st1) = contentWindow (theIframe (run st0 events))
          /\ loadedPromise st1 = Fulfilled) as (Ht1 & Hc1 & Hw1 & Hl1)
    by (subst st1; by destruct (loadTarget (config (run st0 events)))).
  clearbody st1.
  rewrite finishWait_outcome, Hc1, Hw1, Hb.
  destruct (finishWait_completed st1) as (_ & Hdone & _ & Hlp' & _);
    [by rewrite Ht1|].
  destruct Hdone as (Hr' & Hia' & _).
  split; [|by rewrite Hlp', Hl1].
  unfold finishWait. set (st2 := set_microtasks [] _).
  assert (trace st2 = trace (run st0 events) ++ [ReadyResolved; ClearInterval]) as Ht2
    by (subst st2; simpl; rewrite Ht1; by list_assoc).
  clearbody st2.
  destruct (readyContinuation_spec st2)
    as (_ & _ & _ & _ & _ & _ & block & embed & Htr & _).
  exists block. rewrite Htr, Ht2. split; [by list_assoc|].
  apply (readyContinuation_block_waitCalls st2 block Htr).
Qed.

Lemma load_ends_wait_witness :
  exists st0,
    installFriendlyIframeEmbed exampleBrowser None (newIframe 1 (Some (loadedWindow 7 [])))
                               exampleSpec None = inl st0
    /\ isIframeReady (theIframe (run st0 [TimerFired])) = false
    /\ installPromise (step (run st0 [TimerFired]) (LoadEvent TargetIframe))
       = InstallFulfilled 100.
Proof.
  eexists. split; [vm_compute; reflexivity|].
  match goal with |- context [run ?s _] =>
    destruct (load_ends_wait
                exampleBrowser None (newIframe 1 (Some (loadedWindow 7 []))) exampleSpec
                None s [TimerFired] eq_refl eq_refl) as (_ & _ & _ & _ & Hout)
  end.
  split; [vm_compute; reflexivity | exact Hout].
Defined.
